(** * The fs123 distributed-cache reflector: a shallow embedding

    Source: [client/distrib_cache_reflector.py].

    The reflector is one unbounded loop around a UDP socket.  Every
    iteration receives a datagram, looks the sender up in the global
    [contacts] dictionary, drops the packet when the sender was
    reflected less than 10 seconds ago, and otherwise resends it to the
    known contacts (each with probability [f]) while deleting the
    contacts that have been silent for more than 300 seconds.

    Modelling choices.
    - [time.time()] and [random.random()] return Python floats; they are
      idealised as rationals ([Q]).  The float division [50./(n+1)] is
      the rational quotient.
    - [contacts] is a [defaultdict(int)].  A Python dict keeps its keys
      in insertion order and [list(contacts.items())] walks them in that
      order, so the dictionary is an association list with distinct keys
      ([Dict.wf]).  Reading a missing key of a [defaultdict] stores the
      default [int() = 0] under it; [del] of a missing key raises
      [KeyError].
    - [random.random()] is a replayable oracle [rnd : nat -> Q]: the
      [k]-th call made by the process returns [rnd k]; the state counts
      the calls made so far.
    - What the process does to the outside world (the log records and
      the [sendto] calls) is a list of events, in program order.
    - An uncaught exception ends the process: [Raise].  The two places
      where the loop can raise on its own data are modelled: [data[0]]
      and [del contacts[addr]].  [recvfrom] and [sendto] are taken to
      succeed. *)

From Stdlib Require Import String ZArith QArith Bool Lia Lqa List.
From Stdlib Require Import Strings.Byte.
Import ListNotations.
Open Scope Q_scope.

Set Implicit Arguments.

(** ** Comparisons on timestamps *)

(** Python's [x < y] on floats, as a boolean. *)
Definition Qltb (x y : Q) : bool := negb (Qle_bool y x).

(** ** Addresses, payloads, exceptions *)

(** An [AF_INET] address as [recvfrom] returns it: [(host, port)]. *)
Definition sockaddr : Type := (string * Z)%type.

Definition addr_eqb (a b : sockaddr) : bool :=
  (String.eqb (fst a) (fst b) && Z.eqb (snd a) (snd b))%bool.

Definition my_addr : sockaddr := (EmptyString, 4444%Z).

Definition bytes : Type := list byte.

Inductive exn : Type :=
| IndexError  (* [data[0]] on an empty [bytes] *)
| KeyError.   (* [del contacts[addr]] on a missing key *)

Inductive result (A : Type) : Type :=
| Ok (a : A)
| Raise (e : exn).

Arguments Ok {A} a.
Arguments Raise {A} e.

Definition bind {A B : Type} (m : result A) (k : A -> result B) : result B :=
  match m with
  | Ok a => k a
  | Raise e => Raise e
  end.

Notation "x <- m ;; k" := (bind m (fun x => k))
  (at level 61, m at next level, right associativity).

(** ** The [contacts] dictionary *)

Module Dict.

Definition t : Type := list (sockaddr * Q).

Definition keys (d : t) : list sockaddr := map fst d.

(** No key occurs twice: what a Python dict guarantees. *)
Definition wf (d : t) : Prop := NoDup (keys d).

(** [d.get(a)] *)
Fixpoint get (a : sockaddr) (d : t) : option Q :=
  match d with
  | [] => None
  | (k, v) :: d' => if addr_eqb k a then Some v else get a d'
  end.

(** [d[a] = v]: an existing key keeps its place, a new one goes last. *)
Fixpoint set (a : sockaddr) (v : Q) (d : t) : t :=
  match d with
  | [] => [(a, v)]
  | (k, w) :: d' =>
      if addr_eqb k a then (k, v) :: d' else (k, w) :: set a v d'
  end.

(** [del d[a]] *)
Fixpoint del (a : sockaddr) (d : t) : result t :=
  match d with
  | [] => Raise KeyError
  | (k, w) :: d' =>
      if addr_eqb k a then Ok d'
      else r <- del a d' ;; Ok ((k, w) :: r)
  end.

(** [d[a]] on a [defaultdict(int)]: a missing key is first stored
    with the default [0]. *)
Definition getitem (a : sockaddr) (d : t) : Q * t :=
  match get a d with
  | Some v => (v, d)
  | None => (0, set a 0 d)
  end.

End Dict.

(** ** Observable events *)

Inductive event : Type :=
| LogReceived (tag : byte) (body : bytes) (src : sockaddr)
| LogTooFast (now last : Q) (src : sockaddr)
| LogTooMany (n : nat) (f : Q)
| LogSendto (dst : sockaddr)
| Sendto (payload : bytes) (dst : sockaddr).

(** The datagrams that left the socket, in order. *)
Fixpoint sends (evs : list event) : list (bytes * sockaddr) :=
  match evs with
  | [] => []
  | Sendto payload dst :: evs' => (payload, dst) :: sends evs'
  | _ :: evs' => sends evs'
  end.

(** ** Process state and one loop iteration *)

Record state : Type := mkState {
  contacts : Dict.t;   (* the global [contacts] *)
  draws : nat          (* calls made to [random.random()] so far *)
}.

(** What one iteration reads from the outside: [recvfrom] and
    [time.time()]. *)
Record arrival : Type := mkArrival {
  pkt_data : bytes;
  pkt_address : sockaddr;
  pkt_now : Q
}.

(** [len(contacts)] as a number. *)
Definition len (d : Dict.t) : Q := inject_Z (Z.of_nat (length d)).

(** [f = 50./(len(contacts)+1)] *)
Definition fanout (d : Dict.t) : Q := 50 / (len d + 1).

(** [now - last < 10] *)
Definition too_fast (now last : Q) : bool := Qltb (now - last) 10.

(** [now - when > 300] *)
Definition stale (now when : Q) : bool := Qltb 300 (now - when).

(** The body of [for addr,when in list(contacts.items())], over the
    entries of the snapshot that are still to be visited. *)
Fixpoint reflect (rnd : nat -> Q) (data : bytes) (now f : Q)
    (snapshot : list (sockaddr * Q)) (st : state)
    : result (state * list event) :=
  match snapshot with
  | [] => Ok (st, [])
  | (addr, when) :: rest =>
      let out :=
        if Qltb (rnd (draws st)) f
        then [LogSendto addr; Sendto data addr] else [] in
      live <- (if stale now when
               then Dict.del addr (contacts st)
               else Ok (contacts st)) ;;
      r <- reflect rnd data now f rest (mkState live (S (draws st))) ;;
      Ok (fst r, out ++ snd r)
  end.

(** One iteration of [while True]. *)
Definition handle (rnd : nat -> Q) (st : state) (p : arrival)
    : result (state * list event) :=
  match pkt_data p with
  | [] => Raise IndexError                       (* [data[0]] *)
  | tag :: rest =>
      let received := LogReceived tag (removelast rest) (pkt_address p) in
      let now := pkt_now p in
      let (last, c1) := Dict.getitem (pkt_address p) (contacts st) in
      if too_fast now last then
        Ok (mkState c1 (draws st),
            [received; LogTooFast now last (pkt_address p)])
      else
        let c2 := Dict.set (pkt_address p) now c1 in
        let f := fanout c2 in
        let warn := if Qltb f 1 then [LogTooMany (length c2) f] else [] in
        r <- reflect rnd (pkt_data p) now f c2 (mkState c2 (draws st)) ;;
        Ok (fst r, received :: warn ++ snd r)
  end.

(** The loop over the packets that arrive, one list of events per
    packet. *)
Fixpoint run (rnd : nat -> Q) (st : state) (arrivals : list arrival)
    : result (state * list (list event)) :=
  match arrivals with
  | [] => Ok (st, [])
  | p :: ps =>
      r <- handle rnd st p ;;
      rs <- run rnd (fst r) ps ;;
      Ok (fst rs, snd r :: snd rs)
  end.

(** The process starts with [contacts = defaultdict(int)]. *)
Definition initial : state := mkState [] 0.

(** ** Derived notions used to state the properties *)

(** An entry survives a pass at [now] when it is not [stale]. *)
Definition fresh (now : Q) (e : sockaddr * Q) : bool :=
  negb (stale now (snd e)).

(** What a pass over [snapshot] emits when its first draw is the
    [k]-th of the process. *)
Fixpoint forwarded (rnd : nat -> Q) (data : bytes) (f : Q) (k : nat)
    (snapshot : list (sockaddr * Q)) : list event :=
  match snapshot with
  | [] => []
  | (addr, _) :: rest =>
      (if Qltb (rnd k) f then [LogSendto addr; Sendto data addr] else [])
      ++ forwarded rnd data f (S k) rest
  end.

(** The test of line 51 on the table as the iteration finds it. *)
Definition rejected (d : Dict.t) (p : arrival) : bool :=
  too_fast (pkt_now p) (fst (Dict.getitem (pkt_address p) d)).

(** The table when the pass starts: the sender read, then stored. *)
Definition refreshed (d : Dict.t) (p : arrival) : Dict.t :=
  Dict.set (pkt_address p) (pkt_now p) (snd (Dict.getitem (pkt_address p) d)).

(** Every draw lies in [[0, 1)], as [random.random()] promises. *)
Definition unit_draws (rnd : nat -> Q) : Prop :=
  forall k, 0 <= rnd k /\ rnd k < 1.

(** The chance that a uniform draw from [[0, 1)] is below [f]: the
    per-entry forwarding probability of a pass run with [f]. *)
Definition forward_prob (f : Q) : Q :=
  if Qltb f 1 then (if Qltb 0 f then f else 0) else 1.

(** Expected number of datagrams of a pass over [snapshot] run with
    [f]: one term [forward_prob f] per entry. *)
Definition expected_sends (f : Q) (snapshot : Dict.t) : Q :=
  fold_right (fun _ acc => forward_prob f + acc) 0 snapshot.

(** A decidable form of [Dict.wf]. *)
Fixpoint distinct (ks : list sockaddr) : bool :=
  match ks with
  | [] => true
  | k :: ks' => negb (existsb (addr_eqb k) ks') && distinct ks'
  end.

(** The table that line 61 copies, written out from the table the
    iteration found: lines 48 and 57 restamp the sender's entry where it
    stands, or put a new sender last. *)
Definition scanned (d : Dict.t) (address : sockaddr) (now : Q) : Dict.t :=
  match Dict.get address d with
  | Some _ =>
      map (fun e => if addr_eqb (fst e) address then (fst e, now) else e) d
  | None => d ++ [(address, now)]
  end.

(** ** Concrete peers and packets used in the examples *)

Definition peerA : sockaddr := ("10.0.0.1"%string, 4444%Z).
Definition peerB : sockaddr := ("10.0.0.2"%string, 4444%Z).
Definition peerC : sockaddr := ("10.0.0.3"%string, 4444%Z).
Definition peerD : sockaddr := ("10.0.0.4"%string, 4444%Z).

(** A presence packet: a tag byte and a short body. *)
Definition ping : bytes := [x01; x66; x73; x00].

(** A random source whose every draw is one half. *)
Definition rnd_half : nat -> Q := fun _ => 1 # 2.

(** Fifty peers behind one host, ports 5000 to 5049, all seen at 1000. *)
Definition crowd : Dict.t :=
  map (fun i => (("10.0.1.1"%string, Z.of_nat (5000 + i)), 1000)) (seq 0 50).

(** One of them sends again twenty seconds later. *)
Definition crowd_ping : arrival :=
  mkArrival ping ("10.0.1.1"%string, 5007%Z) 1020.

(** A random source whose draw number 7 is high and whose other draws
    are one half. *)
Definition rnd_seventh_high : nat -> Q :=
  fun k => if Nat.eqb k 7 then 99 # 100 else 1 # 2.

(** ** Clocks along a run *)

(** The arrival times never go back, starting from [lo]. *)
Fixpoint nondecreasing (lo : Q) (arrivals : list arrival) : Prop :=
  match arrivals with
  | [] => True
  | p :: ps => lo <= pkt_now p /\ nondecreasing (pkt_now p) ps
  end.

(** The time of the last arrival, [lo] when there is none. *)
Fixpoint last_time (lo : Q) (arrivals : list arrival) : Q :=
  match arrivals with
  | [] => lo
  | p :: ps => last_time (pkt_now p) ps
  end.

(** Every timestamp of the table lies between 0 and [hi]. *)
Definition stamps_within (hi : Q) (d : Dict.t) : Prop :=
  forall addr when, In (addr, when) d -> 0 <= when /\ when <= hi.

(** * Side-by-side checks on two roots

    Source: [test/dualroot.py].  Every operation is done under two
    roots and the two results are compared.  The wrappers [_open],
    [_read], ... turn an [OSError] that the call raises into a returned
    value, so a result is a Python value that may be an exception
    object.

    - An exception object is equal ([==]) only to itself: it has an
      identity [err_obj].  [type(e) == OSError] holds for an object of
      class [OSError] itself, not for one of a subclass (Python 3 raises
      [FileNotFoundError], [PermissionError], ... from the [os] calls).
    - The [os] calls are the environment: a method of [Hndl] is a
      function of what its two calls did. *)

Module Dualroot.

Inductive errclass : Type :=
| ExactOSError    (* [type(e) == OSError] *)
| SubOSError.     (* a proper subclass of [OSError] *)

Record oserror : Type := mkErr {
  err_obj : nat;          (* which object it is *)
  err_class : errclass;
  errno : Z
}.

(** The values the wrapped calls return. *)
Inductive pyval : Type :=
| PNone                      (* [os.close] *)
| PInt (n : Z)               (* [os.open], [os.lseek] *)
| PBytes (b : bytes)         (* [os.read], [os.pread] *)
| PNames (l : list string)   (* [os.listdir] *)
| PErr (e : oserror).        (* a caught [OSError] *)

Definition errclass_eq_dec (x y : errclass) : {x = y} + {x <> y}.
Proof. decide equality. Defined.

Definition oserror_eq_dec (x y : oserror) : {x = y} + {x <> y}.
Proof.
  decide equality;
    [apply Z.eq_dec | apply errclass_eq_dec | apply Nat.eq_dec].
Defined.

Definition pyval_eq_dec (x y : pyval) : {x = y} + {x <> y}.
Proof.
  decide equality;
    [apply Z.eq_dec | apply (list_eq_dec Byte.byte_eq_dec)
     | apply (list_eq_dec string_dec) | apply oserror_eq_dec].
Defined.

(** [a == b] *)
Definition pyeq (a b : pyval) : bool :=
  if pyval_eq_dec a b then true else false.

(** [type(v) == OSError] *)
Definition is_OSError (v : pyval) : bool :=
  match v with
  | PErr e => match err_class e with ExactOSError => true | SubOSError => false end
  | _ => false
  end.

(** What an [os] call does: it returns, or it raises an [OSError]. *)
Inductive os_result (A : Type) : Type :=
| Returned (a : A)
| RaisedOSError (e : oserror).

Arguments Returned {A} a.
Arguments RaisedOSError {A} e.

(** [try: return os.f(...)  except OSError as e: return e] *)
Definition catching {A : Type} (inj : A -> pyval) (o : os_result A) : pyval :=
  match o with
  | Returned a => inj a
  | RaisedOSError e => PErr e
  end.

(** The exceptions that leave this module. *)
Inductive exc (V : Type) : Type :=
| MismatchException (msg : string) (a b : V)
| SubscriptError.   (* subscripting an exception object: [TypeError] in
                       Python 3, [IndexError] in Python 2 *)

Arguments MismatchException {V} msg a b.
Arguments SubscriptError {V}.

Inductive outcome (V A : Type) : Type :=
| Return (a : A)
| Throw (e : exc V).

Arguments Return {V A} a.
Arguments Throw {V A} e.

Definition and_then {V A B : Type} (m : outcome V A) (k : A -> outcome V B)
    : outcome V B :=
  match m with
  | Return a => k a
  | Throw e => Throw e
  end.

Definition errno_of (v : pyval) : Z :=
  match v with PErr e => errno e | _ => 0%Z end.

(** [chk(a, b, msg)] *)
Definition chk (a b : pyval) (msg : string) : outcome pyval pyval :=
  if pyeq a b then Return a
  else if (is_OSError a && is_OSError b
           && Z.eqb (errno_of a) (errno_of b))%bool then Return a
  else Throw (MismatchException msg a b).

(** Two results pass [chk] when they are equal, or when both are
    objects of class [OSError] itself with the same [errno]. *)
Definition agree (a b : pyval) : Prop :=
  a = b \/
  (is_OSError a = true /\ is_OSError b = true /\ errno_of a = errno_of b).

(** [os.stat_result], as the sequence of its ten items. *)
Record stat_result : Type := mkStat {
  st_mode : Z; st_ino : Z; st_dev : Z; st_nlink : Z; st_uid : Z;
  st_gid : Z; st_size : Z; st_atime : Z; st_mtime : Z; st_ctime : Z
}.

(** The indices of the [stat] module. *)
Definition ST_MODE : nat := 0.
Definition ST_INO : nat := 1.
Definition ST_DEV : nat := 2.
Definition ST_NLINK : nat := 3.
Definition ST_UID : nat := 4.
Definition ST_GID : nat := 5.
Definition ST_SIZE : nat := 6.
Definition ST_ATIME : nat := 7.
Definition ST_MTIME : nat := 8.
Definition ST_CTIME : nat := 9.

(** What [_stat], [_lstat] and [_fstat] return. *)
Inductive statval : Type :=
| Stat (s : stat_result)
| StatErr (e : oserror).

(** [v[i]] *)
Definition subscript (v : statval) (i : nat) : outcome statval Z :=
  match v with
  | StatErr _ => Throw SubscriptError
  | Stat s =>
      match i with
      | 0 => Return (st_mode s) | 1 => Return (st_ino s)
      | 2 => Return (st_dev s) | 3 => Return (st_nlink s)
      | 4 => Return (st_uid s) | 5 => Return (st_gid s)
      | 6 => Return (st_size s) | 7 => Return (st_atime s)
      | 8 => Return (st_mtime s) | 9 => Return (st_ctime s)
      | _ => Throw SubscriptError
      end%nat
  end.

(** The [for i in (...)] of [chkstat]. *)
Fixpoint chkstat_loop (a b : statval) (msg : string) (indices : list nat)
    : outcome statval statval :=
  match indices with
  | [] => Return a
  | i :: rest =>
      and_then (subscript a i) (fun x =>
      and_then (subscript b i) (fun y =>
      if Z.eqb x y then chkstat_loop a b msg rest
      else Throw (MismatchException msg a b)))
  end.

(** [chkstat(a, b, msg)] *)
Definition chkstat (a b : statval) (msg : string) : outcome statval statval :=
  chkstat_loop a b msg [ST_NLINK; ST_UID; ST_GID; ST_SIZE; ST_MTIME; ST_CTIME].

Definition catching_stat (o : os_result stat_result) : statval :=
  match o with
  | Returned s => Stat s
  | RaisedOSError e => StatErr e
  end.

(** [Hndl.open], given what [os.open] did under each root. *)
Definition Hndl_open (o1 o2 : os_result Z) : outcome pyval (pyval * pyval) :=
  let r1 := catching PInt o1 in
  let r2 := catching PInt o2 in
  if (is_OSError r1 || is_OSError r2)%bool
  then and_then (chk r1 r2 "open") (fun _ => Return (r1, r2))
  else Return (r1, r2).

(** [Hndl.stat], given what [os.stat] did under each root. *)
Definition Hndl_stat (o1 o2 : os_result stat_result)
    : outcome statval statval :=
  chkstat (catching_stat o1) (catching_stat o2) "stat".

(** [Hndl.fstat], given what [os.fstat] did on each descriptor. *)
Definition Hndl_fstat (o1 o2 : os_result stat_result)
    : outcome statval statval :=
  chkstat (catching_stat o1) (catching_stat o2) "fstat".

End Dualroot.

(** * Properties *)

(** ** Comparisons *)

Lemma Qltb_lt (x y : Q) : Qltb x y = true <-> x < y.
Proof.
  unfold Qltb. rewrite negb_true_iff. split.
  - intros H. apply Qnot_le_lt. intros L.
    apply Qle_bool_iff in L. congruence.
  - intros H. destruct (Qle_bool y x) eqn:E; [|reflexivity].
    apply Qle_bool_iff in E. exfalso. exact (Qlt_not_le _ _ H E).
Qed.

Lemma Qltb_ge (x y : Q) : Qltb x y = false <-> y <= x.
Proof.
  unfold Qltb. rewrite negb_false_iff. apply Qle_bool_iff.
Qed.

Lemma addr_eqb_eq (a b : sockaddr) : addr_eqb a b = true <-> a = b.
Proof.
  destruct a as [h p], b as [h' p']. unfold addr_eqb. simpl.
  rewrite andb_true_iff, String.eqb_eq, Z.eqb_eq.
  split; [intros [-> ->]; reflexivity | intros E; inversion E; auto].
Qed.

Lemma addr_eqb_refl (a : sockaddr) : addr_eqb a a = true.
Proof. apply addr_eqb_eq. reflexivity. Qed.

Lemma addr_eqb_neq (a b : sockaddr) : addr_eqb a b = false <-> a <> b.
Proof.
  split.
  - intros H E. apply addr_eqb_eq in E. congruence.
  - intros H. destruct (addr_eqb a b) eqn:E; [|reflexivity].
    apply addr_eqb_eq in E. contradiction.
Qed.

(** ** The dictionary *)

Module DictFacts.
Import Dict.

Lemma get_None (a : sockaddr) (d : t) : get a d = None <-> ~ In a (keys d).
Proof.
  induction d as [|[k v] d IH]; simpl.
  - tauto.
  - destruct (addr_eqb k a) eqn:E.
    + apply addr_eqb_eq in E. split; [discriminate | intros H; tauto].
    + apply addr_eqb_neq in E. rewrite IH. tauto.
Qed.

Lemma get_Some_In (a : sockaddr) (v : Q) (d : t) :
  get a d = Some v -> In (a, v) d.
Proof.
  induction d as [|[k w] d IH]; simpl; [discriminate|].
  destruct (addr_eqb k a) eqn:E.
  - apply addr_eqb_eq in E. intros [= ->]. subst. now left.
  - intros H. right. auto.
Qed.

Lemma In_get (a : sockaddr) (v : Q) (d : t) :
  wf d -> In (a, v) d -> get a d = Some v.
Proof.
  unfold wf. induction d as [|[k w] d IH]; simpl; [tauto|].
  intros ND [E | HI].
  - inversion E; subst. now rewrite addr_eqb_refl.
  - inversion ND as [|? ? NI ND']; subst.
    destruct (addr_eqb k a) eqn:E.
    + apply addr_eqb_eq in E. subst. exfalso. apply NI.
      change a with (fst (a, v)). now apply in_map.
    + auto.
Qed.

Lemma get_set_same (a : sockaddr) (v : Q) (d : t) :
  get a (set a v d) = Some v.
Proof.
  induction d as [|[k w] d IH]; simpl.
  - now rewrite addr_eqb_refl.
  - destruct (addr_eqb k a) eqn:E; simpl; now rewrite E.
Qed.

Lemma get_set_other (a b : sockaddr) (v : Q) (d : t) :
  a <> b -> get b (set a v d) = get b d.
Proof.
  intros N. induction d as [|[k w] d IH]; simpl.
  - apply addr_eqb_neq in N. now rewrite N.
  - destruct (addr_eqb k a) eqn:E; simpl.
    + apply addr_eqb_eq in E. subst k.
      apply addr_eqb_neq in N. now rewrite N.
    + now rewrite IH.
Qed.

(** Storing under a key that is present changes no key. *)
Lemma keys_set_present (a : sockaddr) (v : Q) (d : t) :
  In a (keys d) -> keys (set a v d) = keys d.
Proof.
  induction d as [|[k w] d IH]; simpl; [tauto|].
  destruct (addr_eqb k a) eqn:E; simpl; [reflexivity|].
  apply addr_eqb_neq in E. intros [H | H]; [contradiction|].
  now rewrite IH.
Qed.

(** Storing under a new key appends the entry. *)
Lemma set_absent (a : sockaddr) (v : Q) (d : t) :
  ~ In a (keys d) -> set a v d = d ++ [(a, v)].
Proof.
  induction d as [|[k w] d IH]; simpl; [reflexivity|].
  intros N. destruct (addr_eqb k a) eqn:E.
  - apply addr_eqb_eq in E. tauto.
  - rewrite IH; tauto.
Qed.

Lemma NoDup_snoc (A : Type) (x : A) (l : list A) :
  ~ In x l -> NoDup l -> NoDup (l ++ [x]).
Proof.
  induction l as [|y l IH]; simpl; intros N ND.
  - constructor; [tauto | constructor].
  - inversion ND as [|? ? NI ND']; subst. constructor.
    + rewrite in_app_iff. simpl. intros [H | [H | []]]; [tauto|].
      apply N. now left.
    + apply IH; tauto.
Qed.

Lemma set_wf (a : sockaddr) (v : Q) (d : t) : wf d -> wf (set a v d).
Proof.
  unfold wf. intros ND. destruct (get a d) as [w|] eqn:G.
  - rewrite keys_set_present; [assumption|].
    apply get_Some_In in G. change a with (fst (a, w)). now apply in_map.
  - apply get_None in G. rewrite set_absent by assumption.
    unfold keys. rewrite map_app. simpl. now apply NoDup_snoc.
Qed.

Lemma getitem_wf (a : sockaddr) (d : t) : wf d -> wf (snd (getitem a d)).
Proof.
  unfold getitem. intros W. destruct (get a d); simpl; [assumption|].
  now apply set_wf.
Qed.

(** After [d[a]] the key is there, bound to what was read. *)
Lemma get_getitem (a : sockaddr) (d : t) :
  get a (snd (getitem a d)) = Some (fst (getitem a d)).
Proof.
  unfold getitem. destruct (get a d) eqn:G; simpl; [assumption|].
  apply get_set_same.
Qed.

Lemma get_getitem_other (a b : sockaddr) (d : t) :
  a <> b -> get b (snd (getitem a d)) = get b d.
Proof.
  unfold getitem. intros N. destruct (get a d); simpl; [reflexivity|].
  now apply get_set_other.
Qed.

(** [del] of a key that is present, in a table without duplicates,
    removes exactly its entry. *)
Lemma del_middle (a : sockaddr) (w : Q) (kept rest : t) :
  ~ In a (keys kept) ->
  del a (kept ++ (a, w) :: rest) = Ok (kept ++ rest).
Proof.
  induction kept as [|[k v] kept IH]; simpl; intros N.
  - now rewrite addr_eqb_refl.
  - assert (E : addr_eqb k a = false) by (apply addr_eqb_neq; tauto).
    rewrite E, IH by tauto. reflexivity.
Qed.

Lemma del_absent (a : sockaddr) (d : t) :
  get a d = None -> del a d = Raise KeyError.
Proof.
  induction d as [|[k v] d IH]; simpl; [reflexivity|].
  destruct (addr_eqb k a); [discriminate|].
  intros G. now rewrite IH.
Qed.

(** Filtering on the timestamps keeps the binding of a key whose
    timestamp passes. *)
Lemma get_filter_keep (P : Q -> bool) (a : sockaddr) (v : Q) (d : t) :
  get a d = Some v -> P v = true ->
  get a (filter (fun e => P (snd e)) d) = Some v.
Proof.
  induction d as [|[k w] d IH]; simpl; [discriminate|].
  destruct (addr_eqb k a) eqn:E.
  - intros [= ->] HP. rewrite HP. simpl. now rewrite E.
  - intros G HP. destruct (P w); simpl; [rewrite E|]; auto.
Qed.

Lemma get_filter_drop (P : Q -> bool) (a : sockaddr) (v : Q) (d : t) :
  wf d -> get a d = Some v -> P v = false ->
  get a (filter (fun e => P (snd e)) d) = None.
Proof.
  intros W G HP. apply get_None. unfold keys. rewrite in_map_iff.
  intros [[k w] [E HI]]. simpl in E. subst k.
  apply filter_In in HI. destruct HI as [HI HP']. simpl in HP'.
  apply In_get in HI; [congruence | assumption].
Qed.

Lemma filter_wf (P : sockaddr * Q -> bool) (d : t) : wf d -> wf (filter P d).
Proof.
  unfold wf, keys. induction d as [|[k w] d IH]; simpl; intros ND.
  - constructor.
  - inversion ND as [|? ? NI ND']; subst.
    destruct (P (k, w)); simpl; [|auto].
    constructor; [|auto]. rewrite in_map_iff.
    intros [[k' w'] [E HI]]. simpl in E. subst k'.
    apply filter_In in HI. apply NI.
    change k with (fst (k, w')). apply in_map. tauto.
Qed.

Lemma length_set (a : sockaddr) (v : Q) (d : t) :
  length (set a v d) =
  match get a d with Some _ => length d | None => S (length d) end.
Proof.
  induction d as [|[k w] d IH]; simpl; [reflexivity|].
  destruct (addr_eqb k a); simpl; [reflexivity|].
  rewrite IH. now destruct (get a d).
Qed.

Lemma set_last (a : sockaddr) (v w : Q) (d : t) :
  ~ In a (keys d) -> set a v (d ++ [(a, w)]) = d ++ [(a, v)].
Proof.
  induction d as [|[k u] d IH]; simpl; intros N.
  - now rewrite addr_eqb_refl.
  - assert (E : addr_eqb k a = false) by (apply addr_eqb_neq; tauto).
    rewrite E, IH by tauto. reflexivity.
Qed.

Lemma filter_all (A : Type) (P : A -> bool) (l : list A) :
  (forall x, In x l -> P x = true) -> filter P l = l.
Proof.
  induction l as [|x l IH]; simpl; intros H; [reflexivity|].
  rewrite (H x) by tauto. rewrite IH; [reflexivity|].
  intros y Hy. apply H. tauto.
Qed.

Lemma distinct_wf (d : t) : distinct (keys d) = true -> wf d.
Proof.
  unfold wf. induction (keys d) as [|k ks IH]; simpl; intros H.
  - constructor.
  - apply andb_true_iff in H. destruct H as [H1 H2].
    constructor; [|auto]. intros HI.
    apply negb_true_iff in H1.
    assert (E : existsb (addr_eqb k) ks = true).
    { apply existsb_exists. exists k. split; [exact HI|].
      apply addr_eqb_refl. }
    congruence.
Qed.

End DictFacts.

(** ** The reflection pass *)

Section Pass.
Variables (rnd : nat -> Q) (data : bytes) (now f : Q).

(** A pass over the entries [rest] of a table [kept ++ rest] without
    duplicate keys never raises: it deletes the stale entries among
    [rest], makes one draw per entry, and emits [forwarded]. *)
Lemma reflect_pass : forall (rest kept : Dict.t) (k : nat),
  Dict.wf (kept ++ rest) ->
  reflect rnd data now f rest (mkState (kept ++ rest) k) =
  Ok (mkState (kept ++ filter (fresh now) rest) (k + length rest),
      forwarded rnd data f k rest).
Proof.
  induction rest as [|[addr when] rest IH]; intros kept k W.
  - simpl. now rewrite Nat.add_0_r.
  - unfold Dict.wf, Dict.keys in W. rewrite map_app in W. simpl in W.
    pose proof (NoDup_remove_1 _ _ _ W) as W1.
    pose proof (NoDup_remove_2 _ _ _ W) as W2.
    rewrite in_app_iff in W2.
    cbn [reflect contacts draws filter length].
    unfold fresh at 1. cbn [snd].
    destruct (stale now when) eqn:S.
    + rewrite DictFacts.del_middle by tauto. cbn [bind negb].
      rewrite IH.
      * cbn [bind fst snd forwarded]. now rewrite Nat.add_succ_r.
      * unfold Dict.wf, Dict.keys. now rewrite map_app.
    + cbn [bind negb].
      change (kept ++ (addr, when) :: rest)
        with (kept ++ [(addr, when)] ++ rest).
      rewrite app_assoc, IH.
      * cbn [bind fst snd forwarded].
        rewrite <- app_assoc, Nat.add_succ_r. reflexivity.
      * unfold Dict.wf, Dict.keys. rewrite <- app_assoc, map_app.
        exact W.
Qed.

(** The pass as [handle] starts it: the snapshot is the whole table. *)
Lemma reflect_all (d : Dict.t) (k : nat) :
  Dict.wf d ->
  reflect rnd data now f d (mkState d k) =
  Ok (mkState (filter (fresh now) d) (k + length d),
      forwarded rnd data f k d).
Proof. intros W. exact (reflect_pass d [] k W). Qed.

End Pass.

(** ** One iteration *)

Lemma sends_app (xs ys : list event) : sends (xs ++ ys) = sends xs ++ sends ys.
Proof.
  induction xs as [|e xs IH]; simpl; [reflexivity|].
  destruct e; simpl; now rewrite IH.
Qed.

(** When every draw of a pass is below [f], every entry of the snapshot
    is sent the packet, in snapshot order. *)
Lemma sends_forwarded_all (rnd : nat -> Q) (data : bytes) (f : Q) :
  (forall k, rnd k < f) ->
  forall (snapshot : Dict.t) (k : nat),
    sends (forwarded rnd data f k snapshot) =
    map (fun e => (data, fst e)) snapshot.
Proof.
  intros H. induction snapshot as [|[addr when] rest IH]; intros k; simpl.
  - reflexivity.
  - assert (E : Qltb (rnd k) f = true) by (apply Qltb_lt, H).
    rewrite E. simpl. now rewrite IH.
Qed.

Section Iteration.
Variables (rnd : nat -> Q) (st : state) (p : arrival).
Variables (tag : byte) (body : bytes).
Hypothesis nonempty : pkt_data p = tag :: body.

Let received : event := LogReceived tag (removelast body) (pkt_address p).
Let last : Q := fst (Dict.getitem (pkt_address p) (contacts st)).
Let c2 : Dict.t := refreshed (contacts st) p.

(** A packet that fails the test of line 51: logged, nothing else. *)
Lemma handle_rejected :
  rejected (contacts st) p = true ->
  handle rnd st p =
  Ok (mkState (snd (Dict.getitem (pkt_address p) (contacts st))) (draws st),
      [received; LogTooFast (pkt_now p) last (pkt_address p)]).
Proof.
  unfold rejected, handle. rewrite nonempty. subst received last.
  destruct (Dict.getitem (pkt_address p) (contacts st)) as [l c1].
  simpl. intros ->. reflexivity.
Qed.

(** A packet that passes it: the sender is stored with [now], then the
    pass runs over the whole table. *)
Lemma handle_accepted :
  Dict.wf (contacts st) ->
  rejected (contacts st) p = false ->
  handle rnd st p =
  Ok (mkState (filter (fresh (pkt_now p)) c2) (draws st + length c2),
      received ::
      (if Qltb (fanout c2) 1 then [LogTooMany (length c2) (fanout c2)] else [])
      ++ forwarded rnd (pkt_data p) (fanout c2) (draws st) c2).
Proof.
  intros W. unfold rejected, handle. rewrite nonempty.
  subst received last c2. unfold refreshed.
  pose proof (DictFacts.getitem_wf (pkt_address p) W) as W1.
  destruct (Dict.getitem (pkt_address p) (contacts st)) as [l c1].
  simpl in *. intros ->.
  rewrite reflect_all by (now apply DictFacts.set_wf).
  reflexivity.
Qed.

(** The table stays free of duplicate keys. *)
Lemma handle_wf (st' : state) (evs : list event) :
  Dict.wf (contacts st) ->
  handle rnd st p = Ok (st', evs) -> Dict.wf (contacts st').
Proof.
  intros W H. destruct (rejected (contacts st) p) eqn:R.
  - rewrite handle_rejected in H by assumption.
    injection H as <- _. simpl. now apply DictFacts.getitem_wf.
  - rewrite handle_accepted in H by assumption.
    injection H as <- _. simpl. apply DictFacts.filter_wf.
    apply DictFacts.set_wf. now apply DictFacts.getitem_wf.
Qed.

End Iteration.

(** Every table the process can reach is free of duplicate keys. *)
Lemma run_wf (rnd : nat -> Q) :
  forall (ps : list arrival) (st st' : state) (evss : list (list event)),
    Dict.wf (contacts st) ->
    run rnd st ps = Ok (st', evss) -> Dict.wf (contacts st').
Proof.
  induction ps as [|q ps IH]; intros st st' evss W H; simpl in H.
  - injection H as <- _. exact W.
  - destruct (handle rnd st q) as [[s1 e1]|] eqn:H1; simpl in H;
      [|discriminate].
    destruct (run rnd s1 ps) as [[s2 e2]|] eqn:H2; simpl in H;
      [|discriminate].
    injection H as <- _. apply (IH s1 s2 e2); [|exact H2].
    destruct (pkt_data q) as [|tag body] eqn:D.
    + unfold handle in H1. rewrite D in H1. discriminate.
    + exact (@handle_wf rnd st q tag body D s1 e1 W H1).
Qed.

Lemma reachable_wf (rnd : nat -> Q) (ps : list arrival) (st' : state)
    (evss : list (list event)) :
  run rnd initial ps = Ok (st', evss) -> Dict.wf (contacts st').
Proof. apply run_wf. constructor. Qed.

(** ** Sanity checks on concrete runs *)

Example first_packet_is_reflected_to_its_sender :
  handle rnd_half initial (mkArrival ping peerA 100) =
  Ok (mkState [(peerA, 100)] 1,
      [LogReceived x01 [x66; x73] peerA; LogSendto peerA; Sendto ping peerA]).
Proof. reflexivity. Qed.

Example second_packet_too_soon :
  handle rnd_half (mkState [(peerA, 100)] 1) (mkArrival ping peerA 105) =
  Ok (mkState [(peerA, 100)] 1,
      [LogReceived x01 [x66; x73] peerA; LogTooFast 105 100 peerA]).
Proof. reflexivity. Qed.

Example stale_peer_gets_one_last_packet :
  handle rnd_half (mkState [(peerB, 0); (peerA, 100)] 2)
         (mkArrival ping peerA 301) =
  Ok (mkState [(peerA, 301)] 4,
      [LogReceived x01 [x66; x73] peerA;
       LogSendto peerB; Sendto ping peerB;
       LogSendto peerA; Sendto ping peerA]).
Proof. reflexivity. Qed.

Example early_clock_stores_default :
  handle rnd_half initial (mkArrival ping peerA 5) =
  Ok (mkState [(peerA, 0)] 0,
      [LogReceived x01 [x66; x73] peerA; LogTooFast 5 0 peerA]).
Proof. reflexivity. Qed.

(** * The claims *)

(** ** C1: when the stored timestamp is refreshed *)

(** C1, as stated, fails: after an accepted packet of [peerA] at 100, a
    second one at 105 is rejected by the cooldown, and the timestamp
    stored for [peerA] is still 100, not the arrival time 105. *)
Lemma timestamp_not_refreshed_on_rejection :
  exists st' evss,
    run rnd_half initial [mkArrival ping peerA 100; mkArrival ping peerA 105]
      = Ok (st', evss) /\
    Dict.get peerA (contacts st') = Some 100 /\
    Dict.get peerA (contacts st') <> Some 105.
Proof.
  eexists. eexists. split; [reflexivity|].
  split; [reflexivity | discriminate].
Qed.

(** C1, amended: the lookup of the sender yields the stored timestamp,
    or 0 for an address that is not in the table; an iteration on a
    non-empty packet completes, and afterwards the sender is bound to
    the arrival time [now] when the packet passed the cooldown, and to
    the value that was read when it was rejected. *)
Theorem timestamp_refreshed_on_accept_only
    (rnd : nat -> Q) (st : state) (p : arrival) (tag : byte) (body : bytes) :
  Dict.wf (contacts st) ->
  pkt_data p = tag :: body ->
  let last := match Dict.get (pkt_address p) (contacts st) with
              | Some v => v
              | None => 0
              end in
  exists st' evs,
    handle rnd st p = Ok (st', evs) /\
    Dict.get (pkt_address p) (contacts st') =
      Some (if too_fast (pkt_now p) last then last else pkt_now p).
Proof.
  intros W D last.
  assert (L : fst (Dict.getitem (pkt_address p) (contacts st)) = last).
  { unfold Dict.getitem. subst last.
    now destruct (Dict.get (pkt_address p) (contacts st)). }
  destruct (rejected (contacts st) p) eqn:R.
  - rewrite (handle_rejected rnd st p D R). eexists. eexists.
    split; [reflexivity|]. simpl. unfold rejected in R. rewrite L in R.
    rewrite R, <- L. apply DictFacts.get_getitem.
  - rewrite (handle_accepted rnd st p D W R). eexists. eexists.
    split; [reflexivity|]. simpl. unfold rejected in R. rewrite L in R.
    rewrite R.
    apply (DictFacts.get_filter_keep (fun w => negb (stale (pkt_now p) w))).
    + apply DictFacts.get_set_same.
    + apply negb_true_iff, Qltb_ge. lra.
Qed.

Lemma timestamp_refreshed_on_accept_only_witness :
  exists st' evs,
    handle rnd_half (mkState [(peerA, 100)] 1) (mkArrival ping peerA 111)
      = Ok (st', evs) /\
    Dict.get peerA (contacts st') = Some 111.
Proof.
  apply (@timestamp_refreshed_on_accept_only rnd_half
           (mkState [(peerA, 100)] 1) (mkArrival ping peerA 111)
           x01 [x66; x73; x00]).
  - repeat constructor. simpl. tauto.
  - reflexivity.
Defined.

(** ** C3: an empty datagram *)

(** C3: the code does not do what the claim asks.  On an empty payload
    [data[0]] raises [IndexError] while the log line is being built,
    before the cooldown test; nothing catches it, so the loop ends
    whatever the state, the sender and the packets still to come. *)
Theorem empty_packet_raises
    (rnd : nat -> Q) (st : state) (addr : sockaddr) (now : Q)
    (later : list arrival) :
  handle rnd st (mkArrival [] addr now) = Raise IndexError /\
  run rnd st (mkArrival [] addr now :: later) = Raise IndexError.
Proof. split; reflexivity. Qed.

(** ** C9: a rejected packet changes nothing *)

(** C9: at an arrival time [now >= 10], a packet that the cooldown
    rejects comes from an address that is in the table with
    [now - stored < 10]; the iteration completes, leaves the whole state
    (table and random source) as it was, and sends nothing. *)
Theorem rejection_is_atomic
    (rnd : nat -> Q) (st : state) (p : arrival) (tag : byte) (body : bytes) :
  pkt_data p = tag :: body ->
  10 <= pkt_now p ->
  rejected (contacts st) p = true ->
  (exists stored,
     Dict.get (pkt_address p) (contacts st) = Some stored /\
     pkt_now p - stored < 10) /\
  exists evs,
    handle rnd st p = Ok (st, evs) /\ sends evs = [].
Proof.
  intros D T R.
  assert (P : exists stored,
             Dict.get (pkt_address p) (contacts st) = Some stored /\
             pkt_now p - stored < 10).
  { unfold rejected, too_fast, Dict.getitem in R.
    destruct (Dict.get (pkt_address p) (contacts st)) as [v|]; simpl in R;
      apply Qltb_lt in R.
    - now exists v.
    - exfalso. lra. }
  split; [exact P|].
  rewrite (handle_rejected rnd st p D R).
  destruct P as [stored [G _]]. unfold Dict.getitem. rewrite G. simpl.
  destruct st as [c k]. simpl. eexists. split; reflexivity.
Qed.

Lemma rejection_is_atomic_witness :
  (exists stored,
     Dict.get peerA [(peerB, 999); (peerA, 1000)] = Some stored /\
     1005 - stored < 10) /\
  exists evs,
    handle rnd_half (mkState [(peerB, 999); (peerA, 1000)] 3)
           (mkArrival ping peerA 1005)
      = Ok (mkState [(peerB, 999); (peerA, 1000)] 3, evs) /\
    sends evs = [].
Proof.
  apply (@rejection_is_atomic rnd_half
           (mkState [(peerB, 999); (peerA, 1000)] 3)
           (mkArrival ping peerA 1005) x01 [x66; x73; x00]).
  - reflexivity.
  - simpl. lra.
  - reflexivity.
Defined.

(** ** C6 and C10: eviction during a pass *)

(** C6: an accepted packet's pass completes whatever the draws are, and
    the table it leaves is the table it scanned without the entries
    whose age exceeds 300 seconds: a scanned entry with
    [now - when > 300] is gone, one with [now - when <= 300] (299, or
    300 itself) is bound as before.  The draws [rnd], which decide the
    forwarding, do not enter the outcome. *)
Theorem stale_entries_evicted
    (rnd : nat -> Q) (st : state) (p : arrival) (tag : byte) (body : bytes) :
  Dict.wf (contacts st) ->
  pkt_data p = tag :: body ->
  rejected (contacts st) p = false ->
  exists st' evs,
    handle rnd st p = Ok (st', evs) /\
    contacts st' =
      filter (fun e => negb (Qltb 300 (pkt_now p - snd e)))
             (refreshed (contacts st) p) /\
    forall addr when,
      In (addr, when) (refreshed (contacts st) p) ->
      (300 < pkt_now p - when -> Dict.get addr (contacts st') = None) /\
      (pkt_now p - when <= 300 -> Dict.get addr (contacts st') = Some when).
Proof.
  intros W D R. rewrite (handle_accepted rnd st p D W R).
  eexists. eexists. split; [reflexivity|]. simpl. split; [reflexivity|].
  intros addr when HI.
  assert (W2 : Dict.wf (refreshed (contacts st) p)).
  { apply DictFacts.set_wf. now apply DictFacts.getitem_wf. }
  apply DictFacts.In_get in HI; [|exact W2]. split; intros A.
  - apply DictFacts.get_filter_drop
      with (P := fun w => negb (stale (pkt_now p) w)) (v := when);
      [exact W2 | exact HI |].
    apply negb_false_iff, Qltb_lt. exact A.
  - apply DictFacts.get_filter_keep
      with (P := fun w => negb (stale (pkt_now p) w)); [exact HI |].
    apply negb_true_iff, Qltb_ge. exact A.
Qed.

Lemma stale_entries_evicted_witness :
  exists st' evs,
    handle rnd_half (mkState [(peerB, 0); (peerC, 2); (peerA, 100)] 3)
           (mkArrival ping peerA 301) = Ok (st', evs) /\
    contacts st' = [(peerC, 2); (peerA, 301)] /\
    Dict.get peerB (contacts st') = None /\
    Dict.get peerC (contacts st') = Some 2.
Proof.
  destruct (@stale_entries_evicted rnd_half
              (mkState [(peerB, 0); (peerC, 2); (peerA, 100)] 3)
              (mkArrival ping peerA 301) x01 [x66; x73; x00])
    as [st' [evs [H [C E]]]].
  - repeat constructor; simpl; intuition discriminate.
  - reflexivity.
  - reflexivity.
  - exists st', evs. split; [exact H|]. split; [exact C|]. split.
    + apply (E peerB 0); [simpl; tauto | reflexivity].
    + apply (E peerC 2); [simpl; tauto | discriminate].
Defined.

(** C10: when the pass of an accepted packet at [now] has completed,
    every entry left in the table has a timestamp [t] with
    [now - t <= 300]. *)
Theorem no_stale_entry_survives
    (rnd : nat -> Q) (st : state) (p : arrival) (tag : byte) (body : bytes) :
  Dict.wf (contacts st) ->
  pkt_data p = tag :: body ->
  rejected (contacts st) p = false ->
  exists st' evs,
    handle rnd st p = Ok (st', evs) /\
    forall addr t, In (addr, t) (contacts st') -> pkt_now p - t <= 300.
Proof.
  intros W D R. rewrite (handle_accepted rnd st p D W R).
  eexists. eexists. split; [reflexivity|]. simpl.
  intros addr t HI. apply filter_In in HI. destruct HI as [_ F].
  unfold fresh in F. simpl in F. now apply negb_true_iff, Qltb_ge in F.
Qed.

Lemma no_stale_entry_survives_witness :
  exists st' evs,
    handle rnd_half (mkState [(peerB, 0); (peerC, 2); (peerA, 100)] 3)
           (mkArrival ping peerA 301) = Ok (st', evs) /\
    forall addr t, In (addr, t) (contacts st') -> 301 - t <= 300.
Proof.
  apply (@no_stale_entry_survives rnd_half
           (mkState [(peerB, 0); (peerC, 2); (peerA, 100)] 3)
           (mkArrival ping peerA 301) x01 [x66; x73; x00]).
  - repeat constructor; simpl; intuition discriminate.
  - reflexivity.
  - reflexivity.
Defined.

(** ** The forwarding probability *)

Lemma len_pos (d : Dict.t) : 0 < len d + 1.
Proof.
  unfold len. rewrite <- (inject_Z_plus _ 1).
  change 0 with (inject_Z 0). rewrite <- Zlt_Qlt. lia.
Qed.

(** With fewer than 50 entries in the table, [f >= 1]. *)
Lemma fanout_small (d : Dict.t) : (length d < 50)%nat -> 1 <= fanout d.
Proof.
  intros L. unfold fanout. apply Qle_shift_div_l; [apply len_pos|].
  unfold len. rewrite <- (inject_Z_plus _ 1), Qmult_1_l.
  change 50 with (inject_Z 50). rewrite <- Zle_Qle. lia.
Qed.

(** With 50 entries or more, [f < 1]. *)
Lemma fanout_large (d : Dict.t) : (50 <= length d)%nat -> fanout d < 1.
Proof.
  intros L. unfold fanout. apply Qlt_shift_div_r; [apply len_pos|].
  unfold len. rewrite <- (inject_Z_plus _ 1), Qmult_1_l.
  change 50 with (inject_Z 50). rewrite <- Zlt_Qlt. lia.
Qed.

(** A new sender goes last in the table the pass scans. *)
Lemma refreshed_new_sender (d : Dict.t) (p : arrival) :
  Dict.get (pkt_address p) d = None ->
  refreshed d p = d ++ [(pkt_address p, pkt_now p)].
Proof.
  intros G. unfold refreshed, Dict.getitem. rewrite G. simpl.
  apply DictFacts.get_None in G.
  rewrite DictFacts.set_absent with (v := 0) by assumption.
  now apply DictFacts.set_last.
Qed.

(** The sender is always among the entries the pass scans. *)
Lemma sender_in_refreshed (d : Dict.t) (p : arrival) :
  In (pkt_address p, pkt_now p) (refreshed d p).
Proof. apply DictFacts.get_Some_In, DictFacts.get_set_same. Qed.

(** ** C5: fewer than 50 contacts *)

Lemma restamp_absent (a : sockaddr) (v : Q) (d : Dict.t) :
  ~ In a (Dict.keys d) ->
  map (fun e : sockaddr * Q => if addr_eqb (fst e) a then (fst e, v) else e) d
  = d.
Proof.
  induction d as [|[k w] d IH]; simpl; intros N; [reflexivity|].
  assert (E : addr_eqb k a = false) by (apply addr_eqb_neq; tauto).
  rewrite E, IH by tauto. reflexivity.
Qed.

Lemma set_present (a : sockaddr) (v : Q) (d : Dict.t) :
  Dict.wf d -> In a (Dict.keys d) ->
  Dict.set a v d =
  map (fun e : sockaddr * Q => if addr_eqb (fst e) a then (fst e, v) else e) d.
Proof.
  unfold Dict.wf. induction d as [|[k w] d IH]; simpl; intros W I; [tauto|].
  inversion W as [|? ? NI ND]; subst.
  destruct (addr_eqb k a) eqn:E.
  - apply addr_eqb_eq in E. subst k. now rewrite restamp_absent.
  - apply addr_eqb_neq in E. rewrite IH; [reflexivity | exact ND | tauto].
Qed.

(** What lines 48 and 57 leave is the table [scanned] describes. *)
Lemma refreshed_scanned (d : Dict.t) (p : arrival) :
  Dict.wf d -> refreshed d p = scanned d (pkt_address p) (pkt_now p).
Proof.
  intros W. unfold scanned.
  destruct (Dict.get (pkt_address p) d) as [v|] eqn:G.
  - unfold refreshed, Dict.getitem. rewrite G. simpl.
    apply set_present; [exact W|].
    apply DictFacts.get_Some_In in G.
    change (pkt_address p) with (fst (pkt_address p, v)). now apply in_map.
  - now apply refreshed_new_sender.
Qed.

Lemma length_scanned (d : Dict.t) (a : sockaddr) (v : Q) :
  length (scanned d a v) =
  match Dict.get a d with Some _ => length d | None => S (length d) end.
Proof.
  unfold scanned. destruct (Dict.get a d).
  - apply length_map.
  - rewrite length_app. simpl. lia.
Qed.

Lemma keys_scanned (d : Dict.t) (a : sockaddr) (v : Q) :
  Dict.keys (scanned d a v) =
  Dict.keys d ++ match Dict.get a d with Some _ => [] | None => [a] end.
Proof.
  unfold scanned, Dict.keys. destruct (Dict.get a d).
  - rewrite app_nil_r, map_map. apply map_ext.
    intros [k w]. simpl. now destruct (addr_eqb k a).
  - now rewrite map_app.
Qed.

(** C5: for every accepted packet the pass is run with
    [f = 50 / (N + 1)], where [N] counts the table once the sender has
    been stored: [len(contacts)] as the iteration found it when the
    sender was already in it, one more when the sender is new.  The
    iteration completes, and what it emits is the output of a pass with
    that [f] over that table ([scanned]: the old entries in their order,
    the sender restamped in place or put last).  When [N < 50] this [f]
    is at least 1, so with draws in [[0, 1)] the packet is sent to every
    old contact and, after them, to a sender that is new. *)
Theorem below_fifty_all_receive
    (rnd : nat -> Q) (st : state) (p : arrival) (tag : byte) (body : bytes) :
  Dict.wf (contacts st) ->
  pkt_data p = tag :: body ->
  unit_draws rnd ->
  rejected (contacts st) p = false ->
  let known := match Dict.get (pkt_address p) (contacts st) with
               | Some _ => true
               | None => false
               end in
  let n := if known then length (contacts st)
           else S (length (contacts st)) in
  let N := inject_Z (Z.of_nat n) in
  exists st' evs,
    handle rnd st p = Ok (st', evs) /\
    evs = LogReceived tag (removelast body) (pkt_address p)
          :: (if Qltb (50 / (N + 1)) 1
              then [LogTooMany n (50 / (N + 1))] else [])
          ++ forwarded rnd (pkt_data p) (50 / (N + 1)) (draws st)
                       (scanned (contacts st) (pkt_address p) (pkt_now p)) /\
    ((n < 50)%nat ->
     1 <= 50 / (N + 1) /\
     sends evs =
       map (fun e => (pkt_data p, fst e)) (contacts st)
       ++ (if known then [] else [(pkt_data p, pkt_address p)])).
Proof.
  intros W D U R known n N.
  pose proof (refreshed_scanned p W) as RS.
  pose proof (length_scanned (contacts st) (pkt_address p) (pkt_now p)) as LS.
  pose proof (keys_scanned (contacts st) (pkt_address p) (pkt_now p)) as KS.
  assert (Ln : length (refreshed (contacts st) p) = n).
  { rewrite RS, LS. subst n known.
    now destruct (Dict.get (pkt_address p) (contacts st)). }
  assert (F : fanout (refreshed (contacts st) p) = 50 / (N + 1)).
  { unfold fanout, len. rewrite Ln. reflexivity. }
  rewrite (handle_accepted rnd st p D W R), F, Ln, RS.
  eexists. eexists. split; [reflexivity|]. split; [reflexivity|].
  intros L.
  assert (F1 : 1 <= 50 / (N + 1)).
  { rewrite <- F. apply fanout_small. now rewrite Ln. }
  split; [exact F1|].
  assert (E : Qltb (50 / (N + 1)) 1 = false) by (now apply Qltb_ge).
  rewrite E. cbn [sends app].
  rewrite sends_forwarded_all.
  2:{ intros k. destruct (U k) as [_ H]. eapply Qlt_le_trans; eassumption. }
  rewrite <- (map_map fst (fun a => (pkt_data p, a))).
  fold (Dict.keys (scanned (contacts st) (pkt_address p) (pkt_now p))).
  rewrite KS, map_app. unfold Dict.keys. rewrite map_map. subst known.
  now destruct (Dict.get (pkt_address p) (contacts st)).
Qed.

Lemma below_fifty_all_receive_witness :
  exists st' evs,
    handle rnd_half (mkState [(peerB, 999); (peerA, 900)] 7)
           (mkArrival ping peerC 1000) = Ok (st', evs) /\
    evs = LogReceived x01 [x66; x73] peerC
          :: forwarded rnd_half ping (50 / (3 + 1)) 7
                       [(peerB, 999); (peerA, 900); (peerC, 1000)] /\
    sends evs = [(ping, peerB); (ping, peerA); (ping, peerC)].
Proof.
  destruct (@below_fifty_all_receive rnd_half
              (mkState [(peerB, 999); (peerA, 900)] 7)
              (mkArrival ping peerC 1000) x01 [x66; x73; x00])
    as [st' [evs [H [E S]]]].
  - apply DictFacts.distinct_wf. reflexivity.
  - reflexivity.
  - intros k. unfold rnd_half. split; lra.
  - reflexivity.
  - exists st', evs. split; [exact H|]. split; [exact E|].
    apply S. simpl. lia.
Defined.

(** ** C4: the sender is a recipient too *)

(** C4, as stated, fails: three contacts seen one second ago, a fourth
    address sends a packet.  The table grows to 4 entries, and the
    packet goes to all four of them, the sender [peerD] included. *)
Lemma new_sender_gets_its_packet_back :
  exists st' evs,
    handle rnd_half (mkState [(peerA, 999); (peerB, 999); (peerC, 999)] 3)
           (mkArrival ping peerD 1000) = Ok (st', evs) /\
    length (contacts st') = 4%nat /\
    sends evs <> [(ping, peerA); (ping, peerB); (ping, peerC)] /\
    In (ping, peerD) (sends evs).
Proof.
  eexists. eexists. split; [reflexivity|]. split; [reflexivity|].
  split; [discriminate | simpl; tauto].
Qed.

(** C4, amended: an accepted packet is offered to every entry of the
    table, the sender's own entry included; with fewer than 50 entries
    and draws in [[0, 1)] the sender is always sent its own packet.
    When the sender is new and no contact is older than 300 seconds,
    the table grows by the sender's entry and the packet goes to the old
    contacts and then to the sender (with 3 contacts: 4 entries, 4
    datagrams). *)
Theorem packet_reflected_to_sender_too
    (rnd : nat -> Q) (st : state) (p : arrival) (tag : byte) (body : bytes) :
  Dict.wf (contacts st) ->
  pkt_data p = tag :: body ->
  unit_draws rnd ->
  rejected (contacts st) p = false ->
  (length (refreshed (contacts st) p) < 50)%nat ->
  exists st' evs,
    handle rnd st p = Ok (st', evs) /\
    In (pkt_data p, pkt_address p) (sends evs) /\
    (Dict.get (pkt_address p) (contacts st) = None ->
     (forall addr when,
        In (addr, when) (contacts st) -> pkt_now p - when <= 300) ->
     contacts st' = contacts st ++ [(pkt_address p, pkt_now p)] /\
     sends evs = map (fun e => (pkt_data p, fst e)) (contacts st)
                 ++ [(pkt_data p, pkt_address p)]).
Proof.
  intros W D U R L.
  rewrite (handle_accepted rnd st p D W R).
  assert (E : Qltb (fanout (refreshed (contacts st) p)) 1 = false)
    by (now apply Qltb_ge, fanout_small).
  rewrite E. eexists. eexists. split; [reflexivity|]. simpl.
  rewrite sends_forwarded_all.
  2:{ intros k. destruct (U k) as [_ H].
      eapply Qlt_le_trans; [exact H | now apply fanout_small]. }
  split.
  - change (pkt_data p, pkt_address p)
      with ((fun e : sockaddr * Q => (pkt_data p, fst e))
              (pkt_address p, pkt_now p)).
    apply in_map, sender_in_refreshed.
  - intros G A. rewrite (refreshed_new_sender _ _ G). split.
    + apply DictFacts.filter_all. intros [addr when] HI.
      unfold fresh. simpl. apply negb_true_iff, Qltb_ge.
      apply in_app_iff in HI. destruct HI as [HI | [HI | []]].
      * eapply A; eassumption.
      * inversion HI; subst. lra.
    + now rewrite map_app.
Qed.

Lemma packet_reflected_to_sender_too_witness :
  exists st' evs,
    handle rnd_half (mkState [(peerA, 999); (peerB, 999); (peerC, 999)] 3)
           (mkArrival ping peerD 1000) = Ok (st', evs) /\
    contacts st' =
      [(peerA, 999); (peerB, 999); (peerC, 999); (peerD, 1000)] /\
    sends evs = [(ping, peerA); (ping, peerB); (ping, peerC); (ping, peerD)].
Proof.
  destruct (@packet_reflected_to_sender_too rnd_half
              (mkState [(peerA, 999); (peerB, 999); (peerC, 999)] 3)
              (mkArrival ping peerD 1000) x01 [x66; x73; x00])
    as [st' [evs [H [_ S]]]].
  - repeat constructor; simpl; intuition discriminate.
  - reflexivity.
  - intros k. unfold rnd_half. split; lra.
  - reflexivity.
  - simpl. lia.
  - exists st', evs. split; [exact H|]. apply S.
    + reflexivity.
    + simpl. intros addr when [E | [E | [E | []]]]; inversion E; subst; lra.
Defined.

(** ** C7: evicting twice *)



(** ** C8: the expected number of datagrams *)

(** The datagrams of a pass are exactly the entries whose own draw is
    below [f]: entry [i] of the snapshot uses draw [k + i]. *)
Lemma sends_forwarded_count (rnd : nat -> Q) (data : bytes) (f : Q) :
  forall (snapshot : Dict.t) (k : nat),
    length (sends (forwarded rnd data f k snapshot)) =
    length (filter (fun i => Qltb (rnd i) f) (seq k (length snapshot))).
Proof.
  induction snapshot as [|[addr when] rest IH]; intros k; simpl.
  - reflexivity.
  - destruct (Qltb (rnd k) f); simpl; now rewrite IH.
Qed.

Lemma expected_sends_len (f : Q) (snapshot : Dict.t) :
  expected_sends f snapshot == len snapshot * forward_prob f.
Proof.
  unfold len. induction snapshot as [|e rest IH].
  - simpl. unfold Qeq. simpl. lia.
  - change (expected_sends f (e :: rest))
      with (forward_prob f + expected_sends f rest).
    rewrite IH. cbn [length]. rewrite Nat2Z.inj_succ.
    unfold Z.succ. rewrite inject_Z_plus. ring.
Qed.

(** [forward_prob] is a frequency.  Take the [n] equally likely draws
    [0/n, 1/n, ..., (n-1)/n]: for [f = c/n] with [c <= n], the share of
    them that passes the test [draw < f] is [forward_prob f]. *)
Lemma grid_below (n c j : nat) :
  (0 < n)%nat ->
  Qltb (inject_Z (Z.of_nat j) / inject_Z (Z.of_nat n))
       (inject_Z (Z.of_nat c) / inject_Z (Z.of_nat n)) = Nat.ltb j c.
Proof.
  intros Hn.
  assert (P : 0 < / inject_Z (Z.of_nat n)).
  { apply Qinv_lt_0_compat. change 0 with (inject_Z 0).
    rewrite <- Zlt_Qlt. lia. }
  unfold Qdiv. destruct (Nat.ltb_spec j c) as [L | L].
  - apply Qltb_lt, Qmult_lt_compat_r; [exact P|].
    rewrite <- Zlt_Qlt. lia.
  - apply Qltb_ge, Qmult_le_compat_r; [|apply Qlt_le_weak, P].
    rewrite <- Zle_Qle. lia.
Qed.

Lemma count_below (c : nat) : forall n k : nat,
  length (filter (fun j => Nat.ltb j c) (seq k n)) = Nat.min n (c - k).
Proof.
  induction n as [|n IH]; intros k; [reflexivity|].
  cbn [seq filter].
  destruct (Nat.ltb_spec k c) as [L | L]; cbn [length]; rewrite IH; lia.
Qed.

Lemma forward_prob_frequency (n c : nat) :
  (0 < n)%nat -> (c <= n)%nat ->
  let f := inject_Z (Z.of_nat c) / inject_Z (Z.of_nat n) in
  let below := filter (fun j => Qltb (inject_Z (Z.of_nat j)
                                      / inject_Z (Z.of_nat n)) f)
                      (seq 0 n) in
  inject_Z (Z.of_nat (length below)) / inject_Z (Z.of_nat n)
  == forward_prob f.
Proof.
  intros Hn Hc f below.
  assert (B : length below = c).
  { subst below f.
    rewrite (filter_ext _ (fun j => Nat.ltb j c))
      by (intros j; now apply grid_below).
    rewrite count_below. lia. }
  rewrite B. fold f.
  assert (P : 0 < inject_Z (Z.of_nat n)).
  { change 0 with (inject_Z 0). rewrite <- Zlt_Qlt. lia. }
  assert (F0 : 0 <= f).
  { subst f. apply Qle_shift_div_l; [exact P|]. rewrite Qmult_0_l.
    change 0 with (inject_Z 0). rewrite <- Zle_Qle. lia. }
  assert (F1 : f <= 1).
  { subst f. apply Qle_shift_div_r; [exact P|]. rewrite Qmult_1_l.
    rewrite <- Zle_Qle. lia. }
  unfold forward_prob.
  destruct (Qltb f 1) eqn:E1; [destruct (Qltb 0 f) eqn:E0|].
  - reflexivity.
  - apply Qltb_ge in E0. now apply Qle_antisym.
  - apply Qltb_ge in E1. now apply Qle_antisym.
Qed.

(** C8, as stated, fails: with 50 entries in the scanned table the
    per-entry probability is 50/51 and the expected number of datagrams
    is 2500/51, not 50. *)
Lemma expected_fanout_of_fifty_is_not_fifty :
  rejected crowd crowd_ping = false /\
  length (refreshed crowd crowd_ping) = 50%nat /\
  fanout (refreshed crowd crowd_ping) == 50 # 51 /\
  expected_sends (fanout (refreshed crowd crowd_ping))
                 (refreshed crowd crowd_ping) == 2500 # 51 /\
  ~ expected_sends (fanout (refreshed crowd crowd_ping))
                   (refreshed crowd crowd_ping) == 50.
Proof.
  split; [reflexivity|]. split; [reflexivity|]. split; [reflexivity|].
  split; [reflexivity|]. vm_compute. discriminate.
Qed.

(** C8, amended: for an accepted packet whose scanned table has
    [N >= 50] entries, the pass is run with [f = 50 / (N + 1) < 1], and
    the expected number of datagrams, the sum over the [N] entries of
    the per-entry forwarding probability, is [50 * N / (N + 1)]: below
    50, and above 49. *)
Theorem expected_fanout_large_table
    (rnd : nat -> Q) (st : state) (p : arrival) (tag : byte) (body : bytes) :
  Dict.wf (contacts st) ->
  pkt_data p = tag :: body ->
  rejected (contacts st) p = false ->
  let snapshot := refreshed (contacts st) p in
  let N := inject_Z (Z.of_nat (length snapshot)) in
  (50 <= length snapshot)%nat ->
  exists st' evs,
    handle rnd st p = Ok (st', evs) /\
    evs = LogReceived tag (removelast body) (pkt_address p)
          :: LogTooMany (length snapshot) (50 / (N + 1))
          :: forwarded rnd (pkt_data p) (50 / (N + 1)) (draws st) snapshot /\
    expected_sends (50 / (N + 1)) snapshot == 50 * N / (N + 1) /\
    49 < expected_sends (50 / (N + 1)) snapshot /\
    expected_sends (50 / (N + 1)) snapshot < 50.
Proof.
  intros W D R snapshot N L.
  pose proof (fanout_large snapshot L) as F.
  pose proof (len_pos snapshot) as P.
  rewrite (handle_accepted rnd st p D W R). fold snapshot.
  assert (E : Qltb (fanout snapshot) 1 = true) by (now apply Qltb_lt).
  rewrite E. eexists. eexists. split; [reflexivity|].
  split; [reflexivity|].
  change (len snapshot) with N in P.
  change (fanout snapshot) with (50 / (N + 1)) in E, F.
  assert (E0 : Qltb 0 (50 / (N + 1)) = true).
  { apply Qltb_lt, Qlt_shift_div_l; [exact P | lra]. }
  assert (X : expected_sends (50 / (N + 1)) snapshot == 50 * N / (N + 1)).
  { rewrite expected_sends_len. unfold forward_prob. rewrite E, E0.
    change (len snapshot) with N. field. lra. }
  assert (N50 : 50 <= N).
  { subst N. change 50 with (inject_Z 50). rewrite <- Zle_Qle. lia. }
  split; [exact X|]. rewrite X. split.
  - apply Qlt_shift_div_l; [exact P | lra].
  - apply Qlt_shift_div_r; [exact P | lra].
Qed.

Lemma expected_fanout_large_table_witness :
  exists st' evs,
    handle rnd_half (mkState crowd 0) crowd_ping = Ok (st', evs) /\
    expected_sends (50 / (50 + 1)) (refreshed crowd crowd_ping) < 50.
Proof.
  destruct (@expected_fanout_large_table rnd_half (mkState crowd 0)
              crowd_ping x01 [x66; x73; x00])
    as [st' [evs [H [_ [_ [_ B]]]]]].
  - apply DictFacts.distinct_wf. vm_compute. reflexivity.
  - reflexivity.
  - reflexivity.
  - vm_compute. lia.
  - exists st', evs. split; [exact H | exact B].
Defined.

(** ** C2: the cooldown over a run *)

Lemma run_app (rnd : nat -> Q) : forall (xs ys : list arrival) (st : state),
  run rnd st (xs ++ ys) =
  (r1 <- run rnd st xs ;;
   r2 <- run rnd (fst r1) ys ;;
   Ok (fst r2, snd r1 ++ snd r2)).
Proof.
  induction xs as [|x xs IH]; intros ys st; simpl.
  - destruct (run rnd st ys) as [[s e]|]; reflexivity.
  - destruct (handle rnd st x) as [[s e]|]; simpl; [|reflexivity].
    rewrite IH. destruct (run rnd s xs) as [[s1 e1]|]; simpl; [|reflexivity].
    destruct (run rnd s1 ys) as [[s2 e2]|]; reflexivity.
Qed.

(** An iteration on a non-empty packet completes. *)
Lemma handle_completes (rnd : nat -> Q) (st : state) (p : arrival) :
  Dict.wf (contacts st) -> pkt_data p <> [] ->
  exists st' evs, handle rnd st p = Ok (st', evs).
Proof.
  intros W D. destruct (pkt_data p) as [|tag body] eqn:E; [congruence|].
  destruct (rejected (contacts st) p) eqn:R.
  - rewrite (handle_rejected rnd st p E R). eauto.
  - rewrite (handle_accepted rnd st p E W R). eauto.
Qed.

(** An entry stamped at [t0] or later is still there, stamped at [t0] or
    later, after an iteration whose clock reads between [t0] and
    [t0 + 300]. *)
Lemma handle_keeps_recent (rnd : nat -> Q) (st st' : state) (p : arrival)
    (evs : list event) (a : sockaddr) (t0 t : Q) :
  Dict.wf (contacts st) ->
  handle rnd st p = Ok (st', evs) ->
  Dict.get a (contacts st) = Some t -> t0 <= t ->
  t0 <= pkt_now p -> pkt_now p - t0 <= 300 ->
  exists t', Dict.get a (contacts st') = Some t' /\ t0 <= t'.
Proof.
  intros W H G T Lo Hi.
  destruct (pkt_data p) as [|tag body] eqn:D.
  { unfold handle in H. rewrite D in H. discriminate. }
  assert (G1 : Dict.get a (snd (Dict.getitem (pkt_address p) (contacts st)))
               = Some t).
  { unfold Dict.getitem.
    destruct (Dict.get (pkt_address p) (contacts st)) eqn:GP; simpl.
    - exact G.
    - rewrite DictFacts.get_set_other; [exact G|]. intros E. congruence. }
  destruct (rejected (contacts st) p) eqn:R.
  - rewrite (handle_rejected rnd st p D R) in H. injection H as <- _.
    simpl. eauto.
  - rewrite (handle_accepted rnd st p D W R) in H. injection H as <- _.
    simpl. unfold refreshed.
    destruct (addr_eqb (pkt_address p) a) eqn:E.
    + apply addr_eqb_eq in E. subst a. exists (pkt_now p). split; [|exact Lo].
      apply DictFacts.get_filter_keep
        with (P := fun w => negb (stale (pkt_now p) w)).
      * apply DictFacts.get_set_same.
      * apply negb_true_iff, Qltb_ge. lra.
    + apply addr_eqb_neq in E. exists t. split; [|exact T].
      apply DictFacts.get_filter_keep
        with (P := fun w => negb (stale (pkt_now p) w)).
      * rewrite DictFacts.get_set_other; assumption.
      * apply negb_true_iff, Qltb_ge. lra.
Qed.

Lemma run_keeps_recent (rnd : nat -> Q) (a : sockaddr) (t0 : Q) :
  forall (ps : list arrival) (st : state) (t : Q),
    Dict.wf (contacts st) ->
    Dict.get a (contacts st) = Some t -> t0 <= t ->
    Forall (fun q => pkt_data q <> [] /\
                     t0 <= pkt_now q /\ pkt_now q - t0 <= 300) ps ->
    exists st' evss t',
      run rnd st ps = Ok (st', evss) /\
      Dict.wf (contacts st') /\
      Dict.get a (contacts st') = Some t' /\ t0 <= t'.
Proof.
  induction ps as [|q ps IH]; intros st t W G T F.
  - exists st, [], t. simpl. auto.
  - inversion F as [|? ? [D [Lo Hi]] F']; subst.
    destruct (@handle_completes rnd st q W D) as [s1 [e1 H1]].
    assert (W1 : Dict.wf (contacts s1)).
    { destruct (pkt_data q) as [|tag body] eqn:X; [congruence|].
      eapply handle_wf; eassumption. }
    destruct (@handle_keeps_recent rnd st s1 q e1 a t0 t W H1 G T Lo Hi)
      as [t1 [G1 T1]].
    destruct (IH s1 t1 W1 G1 T1 F') as [s2 [es [t2 [R [W2 [G2 T2]]]]]].
    exists s2, (e1 :: es), t2. simpl. rewrite H1. simpl. rewrite R. simpl.
    auto.
Qed.

(** C2, as stated, fails: [peerA] is accepted at 100 and rejected at
    105; the rejection does not move its timestamp, so its next packet
    at 111, six seconds after the one before it, passes the cooldown
    ([111 - 100 >= 10]) and is reflected to [peerB] and to [peerA]. *)
Lemma close_pair_second_packet_reflected :
  111 - 105 < 10 /\
  run rnd_half initial
      [mkArrival ping peerB 90; mkArrival ping peerA 100;
       mkArrival ping peerA 105; mkArrival ping peerA 111]
    = Ok (mkState [(peerB, 90); (peerA, 111)] 5,
          [[LogReceived x01 [x66; x73] peerB;
            LogSendto peerB; Sendto ping peerB];
           [LogReceived x01 [x66; x73] peerA;
            LogSendto peerB; Sendto ping peerB;
            LogSendto peerA; Sendto ping peerA];
           [LogReceived x01 [x66; x73] peerA; LogTooFast 105 100 peerA];
           [LogReceived x01 [x66; x73] peerA;
            LogSendto peerB; Sendto ping peerB;
            LogSendto peerA; Sendto ping peerA]]).
Proof. split; [lra | vm_compute; reflexivity]. Qed.

(** C2, amended: the cooldown runs from the last accepted packet.  If a
    packet of address [a] passes the cooldown at time [t1], then a later
    packet of [a] that arrives less than 10 seconds after [t1] is not
    reflected to anyone and leaves the state as it was, whatever
    non-empty packets arrive in between (the clock not running
    backwards), and the whole run completes. *)
Theorem cooldown_since_last_accepted
    (rnd : nat -> Q) (st : state) (p1 p2 : arrival) (mid : list arrival) :
  Dict.wf (contacts st) ->
  pkt_data p1 <> [] ->
  rejected (contacts st) p1 = false ->
  Forall (fun q => pkt_data q <> [] /\
                   pkt_now p1 <= pkt_now q /\ pkt_now q <= pkt_now p2) mid ->
  pkt_address p2 = pkt_address p1 ->
  pkt_data p2 <> [] ->
  pkt_now p2 - pkt_now p1 < 10 ->
  exists st1 evs1 st2 evss evs2,
    handle rnd st p1 = Ok (st1, evs1) /\
    run rnd st1 mid = Ok (st2, evss) /\
    handle rnd st2 p2 = Ok (st2, evs2) /\
    sends evs2 = [] /\
    run rnd st (p1 :: mid ++ [p2]) = Ok (st2, evs1 :: evss ++ [evs2]).
Proof.
  intros W D1 R1 F A D2 Close.
  destruct (pkt_data p1) as [|tag1 body1] eqn:E1; [congruence|].
  destruct (pkt_data p2) as [|tag2 body2] eqn:E2; [congruence|].
  pose proof (handle_accepted rnd st p1 E1 W R1) as H1.
  set (st1 := mkState (filter (fresh (pkt_now p1))
                              (refreshed (contacts st) p1))
                      (draws st + length (refreshed (contacts st) p1))) in H1.
  assert (W1 : Dict.wf (contacts st1))
    by exact (@handle_wf rnd st p1 tag1 body1 E1 st1 _ W H1).
  assert (G1 : Dict.get (pkt_address p1) (contacts st1) = Some (pkt_now p1)).
  { simpl. apply DictFacts.get_filter_keep
             with (P := fun w => negb (stale (pkt_now p1) w)).
    - apply DictFacts.get_set_same.
    - apply negb_true_iff, Qltb_ge. lra. }
  assert (F' : Forall (fun q => pkt_data q <> [] /\
                         pkt_now p1 <= pkt_now q /\
                         pkt_now q - pkt_now p1 <= 300) mid).
  { eapply Forall_impl; [|exact F]. simpl. intros q [Dq [Lo Hi]].
    split; [exact Dq|]. split; [exact Lo | lra]. }
  destruct (@run_keeps_recent rnd (pkt_address p1) (pkt_now p1) mid st1
              (pkt_now p1) W1 G1 (Qle_refl _) F')
    as [st2 [evss [t2 [R [W2 [G2 T2]]]]]].
  assert (R2 : rejected (contacts st2) p2 = true).
  { unfold rejected, Dict.getitem. rewrite A, G2. simpl.
    apply Qltb_lt. lra. }
  pose proof (handle_rejected rnd st2 p2 E2 R2) as H2.
  assert (S2 : snd (Dict.getitem (pkt_address p2) (contacts st2))
               = contacts st2).
  { unfold Dict.getitem. rewrite A, G2. reflexivity. }
  rewrite S2 in H2.
  assert (Same : mkState (contacts st2) (draws st2) = st2)
    by (destruct st2; reflexivity).
  rewrite Same in H2.
  do 5 eexists. split; [exact H1|]. split; [exact R|].
  split; [exact H2|]. split; [reflexivity|].
  change (p1 :: mid ++ [p2]) with ((p1 :: mid) ++ [p2]).
  rewrite run_app. cbn [run]. rewrite H1. cbn [bind fst snd].
  rewrite R. cbn [bind fst snd]. rewrite H2. reflexivity.
Qed.

Lemma cooldown_since_last_accepted_witness :
  exists st1 evs1 st2 evss evs2,
    handle rnd_half (mkState [(peerB, 90)] 1) (mkArrival ping peerA 100)
      = Ok (st1, evs1) /\
    run rnd_half st1 [mkArrival ping peerB 103; mkArrival ping peerA 105]
      = Ok (st2, evss) /\
    handle rnd_half st2 (mkArrival ping peerA 109) = Ok (st2, evs2) /\
    sends evs2 = [] /\
    run rnd_half (mkState [(peerB, 90)] 1)
        (mkArrival ping peerA 100
         :: [mkArrival ping peerB 103; mkArrival ping peerA 105]
         ++ [mkArrival ping peerA 109])
      = Ok (st2, evs1 :: evss ++ [evs2]).
Proof.
  apply (@cooldown_since_last_accepted rnd_half (mkState [(peerB, 90)] 1)
           (mkArrival ping peerA 100) (mkArrival ping peerA 109)
           [mkArrival ping peerB 103; mkArrival ping peerA 105]).
  - apply DictFacts.distinct_wf. reflexivity.
  - discriminate.
  - reflexivity.
  - repeat constructor; simpl; try discriminate; lra.
  - reflexivity.
  - discriminate.
  - simpl. lra.
Defined.


(** * Further properties of the loop *)

(** ** What a pass sends *)

(** The recipients of a pass are entries of its snapshot, each at most
    once, and every datagram carries the payload it was given. *)
Lemma forwarded_recipients (rnd : nat -> Q) (data : bytes) (f : Q) :
  forall (snapshot : Dict.t) (k : nat),
    Forall (fun s => fst s = data) (sends (forwarded rnd data f k snapshot)) /\
    incl (map snd (sends (forwarded rnd data f k snapshot)))
         (Dict.keys snapshot) /\
    (Dict.wf snapshot ->
     NoDup (map snd (sends (forwarded rnd data f k snapshot)))) /\
    (length (sends (forwarded rnd data f k snapshot)) <= length snapshot)%nat.
Proof.
  induction snapshot as [|[addr when] rest IH]; intros k.
  - simpl. split; [constructor|]. split; [intros x []|].
    split; [intros _; constructor | lia].
  - destruct (IH (S k)) as [A [B [C D]]]. cbn [forwarded].
    destruct (Qltb (rnd k) f); cbn [app sends map fst snd length Dict.keys].
    + split; [constructor; [reflexivity | exact A]|].
      split; [intros x [<- | H]; [now left | right; now apply B]|].
      split; [|lia].
      intros W. inversion W as [|? ? NI ND]; subst.
      constructor; [|now apply C]. intros H. apply NI. now apply B.
    + split; [exact A|].
      split; [intros x H; right; now apply B|].
      split; [|lia].
      intros W. inversion W; subst. now apply C.
Qed.

Lemma sends_LogTooMany (b : bool) (n : nat) (f : Q) (evs : list event) :
  sends ((if b then [LogTooMany n f] else []) ++ evs) = sends evs.
Proof. now destruct b. Qed.

Lemma refreshed_wf (d : Dict.t) (p : arrival) :
  Dict.wf d -> Dict.wf (refreshed d p).
Proof.
  intros W. apply DictFacts.set_wf. now apply DictFacts.getitem_wf.
Qed.

(** Storing the sender adds at most one entry. *)
Lemma length_getitem (a : sockaddr) (d : Dict.t) :
  (length (snd (Dict.getitem a d)) <= S (length d))%nat.
Proof.
  unfold Dict.getitem. destruct (Dict.get a d) eqn:G; simpl; [lia|].
  rewrite DictFacts.length_set, G. lia.
Qed.

Lemma length_refreshed (d : Dict.t) (p : arrival) :
  length (refreshed d p) = length (snd (Dict.getitem (pkt_address p) d)).
Proof.
  unfold refreshed. rewrite DictFacts.length_set, DictFacts.get_getitem.
  reflexivity.
Qed.

Lemma nonempty_inv (p : arrival) :
  pkt_data p <> [] -> exists tag body, pkt_data p = tag :: body.
Proof. destruct (pkt_data p) as [|tag body]; [congruence | eauto]. Qed.

(** X1: whatever the draws, the datagrams of one iteration all carry the
    received payload byte for byte, go to entries of the scanned table
    (the old contacts and the sender), no address twice, and there are
    at most [len(contacts) + 1] of them. *)
Theorem datagrams_verbatim_and_distinct
    (rnd : nat -> Q) (st : state) (p : arrival) :
  Dict.wf (contacts st) ->
  pkt_data p <> [] ->
  exists st' evs,
    handle rnd st p = Ok (st', evs) /\
    Forall (fun s => fst s = pkt_data p) (sends evs) /\
    NoDup (map snd (sends evs)) /\
    (forall addr, In addr (map snd (sends evs)) ->
       addr = pkt_address p \/ In addr (Dict.keys (contacts st))) /\
    (length (sends evs) <= S (length (contacts st)))%nat.
Proof.
  intros W D. destruct (nonempty_inv p D) as [tag [body E]].
  destruct (rejected (contacts st) p) eqn:R.
  - rewrite (handle_rejected rnd st p E R). eexists. eexists.
    split; [reflexivity|]. simpl.
    split; [constructor|]. split; [constructor|].
    split; [intros addr [] | lia].
  - rewrite (handle_accepted rnd st p E W R). eexists. eexists.
    split; [reflexivity|]. cbn [sends]. rewrite sends_LogTooMany.
    destruct (forwarded_recipients rnd (pkt_data p)
                (fanout (refreshed (contacts st) p))
                (refreshed (contacts st) p) (draws st)) as [A [B [C L]]].
    split; [exact A|]. split; [apply C, refreshed_wf, W|]. split.
    + intros addr H. apply B in H. unfold Dict.keys in H.
      apply in_map_iff in H. destruct H as [[a w] [<- H]]. simpl.
      destruct (addr_eqb (pkt_address p) a) eqn:Q.
      * left. symmetry. now apply addr_eqb_eq.
      * right. apply addr_eqb_neq in Q.
        assert (G : Dict.get a (refreshed (contacts st) p) = Some w)
          by (apply DictFacts.In_get; [apply refreshed_wf, W | exact H]).
        unfold refreshed in G.
        rewrite DictFacts.get_set_other, DictFacts.get_getitem_other in G
          by assumption.
        apply DictFacts.get_Some_In in G.
        change a with (fst (a, w)). now apply in_map.
    + rewrite length_refreshed in L.
      pose proof (length_getitem (pkt_address p) (contacts st)). lia.
Qed.

Lemma datagrams_verbatim_and_distinct_witness :
  exists st' evs,
    handle rnd_half (mkState [(peerB, 0); (peerC, 2); (peerA, 100)] 3)
           (mkArrival ping peerA 301) = Ok (st', evs) /\
    Forall (fun s => fst s = ping) (sends evs) /\
    NoDup (map snd (sends evs)).
Proof.
  destruct (@datagrams_verbatim_and_distinct rnd_half
              (mkState [(peerB, 0); (peerC, 2); (peerA, 100)] 3)
              (mkArrival ping peerA 301))
    as [st' [evs [H [A [B _]]]]].
  - apply DictFacts.distinct_wf. reflexivity.
  - discriminate.
  - exists st', evs. split; [exact H|]. split; [exact A | exact B].
Defined.

(** ** The random source *)

(** Entry [i] of a snapshot without duplicate keys is sent the packet
    exactly when draw [k + i] is below [f]. *)
Lemma forwarded_entry (rnd : nat -> Q) (data : bytes) (f : Q) :
  forall (snapshot : Dict.t) (k i : nat) (addr : sockaddr) (when : Q),
    Dict.wf snapshot ->
    nth_error snapshot i = Some (addr, when) ->
    (In (data, addr) (sends (forwarded rnd data f k snapshot)) <->
     rnd (k + i)%nat < f).
Proof.
  induction snapshot as [|[a0 w0] rest IH]; intros k i addr when W E.
  - destruct i; discriminate.
  - inversion W as [|? ? NI ND]; subst.
    destruct (forwarded_recipients rnd data f rest (S k)) as [_ [B _]].
    assert (Tail : forall a, In (data, a)
                               (sends (forwarded rnd data f (S k) rest)) ->
                             In a (Dict.keys rest)).
    { intros a H. apply B.
      change a with (snd (data, a)). now apply in_map. }
    cbn [forwarded]. rewrite sends_app, in_app_iff.
    destruct i as [|i]; simpl in E.
    + injection E as -> ->. rewrite Nat.add_0_r. split.
      * intros [H | H]; [|exfalso; exact (NI (Tail _ H))].
        destruct (Qltb (rnd k) f) eqn:Q; [now apply Qltb_lt|].
        destruct H.
      * intros H. apply Qltb_lt in H. rewrite H. left. simpl. tauto.
    + assert (I : In addr (Dict.keys rest)).
      { apply nth_error_In in E. change addr with (fst (addr, when)).
        now apply in_map. }
      assert (Ne : a0 <> addr) by (intros ->; exact (NI I)).
      rewrite Nat.add_succ_r, <- Nat.add_succ_l.
      rewrite <- (IH (S k) i addr when ND E). split.
      * intros [H | H]; [|exact H].
        destruct (Qltb (rnd k) f); simpl in H; [|tauto].
        destruct H as [H | []]. congruence.
      * tauto.
Qed.

(** X2: a rejected packet makes no draw and sends nothing.  An accepted
    one makes exactly one draw per entry of the table it scans, in the
    order of the table: entry [i] (the old entries in their order, a new
    sender last) is sent the packet exactly when draw [draws st + i] of
    the process is below [f = 50 / (len + 1)]; so the number of
    datagrams is the number of those draws that are below [f]. *)
Theorem one_draw_per_scanned_entry
    (rnd : nat -> Q) (st : state) (p : arrival) :
  Dict.wf (contacts st) ->
  pkt_data p <> [] ->
  let snapshot := scanned (contacts st) (pkt_address p) (pkt_now p) in
  let f := 50 / (inject_Z (Z.of_nat (length snapshot)) + 1) in
  exists st' evs,
    handle rnd st p = Ok (st', evs) /\
    if rejected (contacts st) p
    then draws st' = draws st /\ sends evs = []
    else draws st' = (draws st + length snapshot)%nat /\
         (forall i addr when,
            nth_error snapshot i = Some (addr, when) ->
            (In (pkt_data p, addr) (sends evs) <->
             rnd (draws st + i)%nat < f)) /\
         length (sends evs) =
         length (filter (fun i => Qltb (rnd i) f)
                        (seq (draws st) (length snapshot))).
Proof.
  intros W D snapshot f. destruct (nonempty_inv p D) as [tag [body E]].
  destruct (rejected (contacts st) p) eqn:R.
  - rewrite (handle_rejected rnd st p E R). eexists. eexists.
    split; [reflexivity|]. split; reflexivity.
  - rewrite (handle_accepted rnd st p E W R).
    rewrite (refreshed_scanned p W). fold snapshot.
    change (fanout snapshot) with f.
    eexists. eexists. split; [reflexivity|]. split; [reflexivity|].
    cbn [sends]. rewrite sends_LogTooMany. split.
    + intros i addr when N. apply forwarded_entry with (when := when).
      * subst snapshot. rewrite <- (refreshed_scanned p W).
        apply refreshed_wf, W.
      * exact N.
    + apply sends_forwarded_count.
Qed.

Lemma one_draw_per_scanned_entry_witness :
  exists st' evs,
    handle rnd_seventh_high (mkState crowd 0) crowd_ping = Ok (st', evs) /\
    draws st' = 50%nat /\
    In (ping, ("10.0.1.1"%string, 5003%Z)) (sends evs) /\
    ~ In (ping, ("10.0.1.1"%string, 5007%Z)) (sends evs) /\
    length (sends evs) = 49%nat.
Proof.
  destruct (@one_draw_per_scanned_entry rnd_seventh_high (mkState crowd 0)
              crowd_ping)
    as [st' [evs [H [A [B C]]]]].
  - apply DictFacts.distinct_wf. vm_compute. reflexivity.
  - discriminate.
  - exists st', evs. split; [exact H|]. split; [exact A|].
    split; [|split; [|exact C]].
    + apply (B 3%nat ("10.0.1.1"%string, 5003%Z) 1000 eq_refl).
      vm_compute. reflexivity.
    + intros I.
      apply (B 7%nat ("10.0.1.1"%string, 5007%Z) 1020 eq_refl) in I.
      vm_compute in I. discriminate I.
Defined.

(** ** The contacts other than the sender *)

Lemma get_filter_None (P : sockaddr * Q -> bool) (a : sockaddr) (d : Dict.t) :
  Dict.get a d = None -> Dict.get a (filter P d) = None.
Proof.
  intros G. apply DictFacts.get_None. apply DictFacts.get_None in G.
  unfold Dict.keys in *. rewrite in_map_iff in *.
  intros [e [E HI]]. apply G. exists e. split; [exact E|].
  apply filter_In in HI. tauto.
Qed.

(** X3: an iteration never changes the timestamp of an address other
    than the sender.  Its entry stays as it is, except that an accepted
    packet's pass removes it when it is more than 300 seconds old. *)
Theorem other_contacts_keep_their_timestamp
    (rnd : nat -> Q) (st : state) (p : arrival) (b : sockaddr) :
  Dict.wf (contacts st) ->
  pkt_data p <> [] ->
  b <> pkt_address p ->
  exists st' evs,
    handle rnd st p = Ok (st', evs) /\
    Dict.get b (contacts st') =
      match Dict.get b (contacts st) with
      | Some when =>
          if negb (rejected (contacts st) p) && stale (pkt_now p) when
          then None else Some when
      | None => None
      end.
Proof.
  intros W D N. destruct (nonempty_inv p D) as [tag [body E]].
  assert (N' : pkt_address p <> b) by congruence.
  destruct (rejected (contacts st) p) eqn:R.
  - rewrite (handle_rejected rnd st p E R). eexists. eexists.
    split; [reflexivity|]. simpl.
    rewrite DictFacts.get_getitem_other by assumption.
    now destruct (Dict.get b (contacts st)).
  - rewrite (handle_accepted rnd st p E W R). eexists. eexists.
    split; [reflexivity|]. simpl.
    assert (G : Dict.get b (refreshed (contacts st) p)
                = Dict.get b (contacts st)).
    { unfold refreshed.
      rewrite DictFacts.get_set_other, DictFacts.get_getitem_other
        by assumption. reflexivity. }
    destruct (Dict.get b (contacts st)) as [when|] eqn:G0.
    + destruct (stale (pkt_now p) when) eqn:S.
      * apply DictFacts.get_filter_drop
          with (P := fun w => negb (stale (pkt_now p) w)) (v := when);
          [apply refreshed_wf, W | exact G | now rewrite S].
      * apply DictFacts.get_filter_keep
          with (P := fun w => negb (stale (pkt_now p) w));
          [exact G | now rewrite S].
    + now apply get_filter_None.
Qed.

Lemma other_contacts_keep_their_timestamp_witness :
  exists st' evs,
    handle rnd_half (mkState [(peerB, 0); (peerC, 2); (peerA, 100)] 3)
           (mkArrival ping peerA 301) = Ok (st', evs) /\
    Dict.get peerC (contacts st') = Some 2.
Proof.
  apply (@other_contacts_keep_their_timestamp rnd_half
           (mkState [(peerB, 0); (peerC, 2); (peerA, 100)] 3)
           (mkArrival ping peerA 301) peerC).
  - apply DictFacts.distinct_wf. reflexivity.
  - discriminate.
  - discriminate.
Defined.

(** ** The warning about too many contacts *)

Lemma forwarded_no_warning (rnd : nat -> Q) (data : bytes) (f g : Q) (n : nat) :
  forall (snapshot : Dict.t) (k : nat),
    ~ In (LogTooMany n g) (forwarded rnd data f k snapshot).
Proof.
  induction snapshot as [|[addr when] rest IH]; intros k; simpl; [tauto|].
  destruct (Qltb (rnd k) f); simpl.
  - intros [H | [H | H]]; [discriminate | discriminate | exact (IH _ H)].
  - apply IH.
Qed.

(** X4: an accepted packet logs the "Too many contacts" warning exactly
    when the scanned table (sender included) has 50 entries or more,
    and the warning then reports that size and the [f] the pass uses. *)
Theorem too_many_warning_from_fifty
    (rnd : nat -> Q) (st : state) (p : arrival) :
  Dict.wf (contacts st) ->
  pkt_data p <> [] ->
  rejected (contacts st) p = false ->
  let snapshot := refreshed (contacts st) p in
  exists st' evs,
    handle rnd st p = Ok (st', evs) /\
    ((exists n f, In (LogTooMany n f) evs) <-> (50 <= length snapshot)%nat) /\
    (forall n f, In (LogTooMany n f) evs ->
       n = length snapshot /\ f = fanout snapshot).
Proof.
  intros W D R snapshot. destruct (nonempty_inv p D) as [tag [body E]].
  rewrite (handle_accepted rnd st p E W R). fold snapshot.
  eexists. eexists. split; [reflexivity|].
  destruct (Qltb (fanout snapshot) 1) eqn:F.
  - apply Qltb_lt in F.
    assert (L : (50 <= length snapshot)%nat).
    { destruct (Nat.le_gt_cases 50 (length snapshot)) as [L | L];
        [exact L|]. pose proof (fanout_small snapshot L). lra. }
    split.
    + split; [intros _; exact L|]. intros _.
      exists (length snapshot), (fanout snapshot). simpl. tauto.
    + intros n f [H | [H | H]]; [discriminate | |].
      * inversion H. split; reflexivity.
      * exfalso. exact (forwarded_no_warning _ _ _ _ _ _ _ H).
  - apply Qltb_ge in F. split.
    + split.
      * intros [n [f [H | H]]]; [discriminate|]. exfalso.
        exact (forwarded_no_warning _ _ _ _ _ _ _ H).
      * intros L. pose proof (fanout_large snapshot L). lra.
    + intros n f [H | H]; [discriminate|]. exfalso.
      exact (forwarded_no_warning _ _ _ _ _ _ _ H).
Qed.

Lemma too_many_warning_from_fifty_witness :
  exists st' evs,
    handle rnd_half (mkState crowd 0) crowd_ping = Ok (st', evs) /\
    exists n f, In (LogTooMany n f) evs.
Proof.
  destruct (@too_many_warning_from_fifty rnd_half (mkState crowd 0) crowd_ping)
    as [st' [evs [H [[_ A] _]]]].
  - apply DictFacts.distinct_wf. vm_compute. reflexivity.
  - discriminate.
  - reflexivity.
  - exists st', evs. split; [exact H|]. apply A. vm_compute. lia.
Defined.

(** ** A clock that reads less than 10 *)

(** X5: reading [contacts[address]] stores the default.  When the clock
    reads less than 10, a packet from an address that is not in the
    table is rejected by the cooldown, and yet the address has become a
    contact, stamped 0, at the end of the table; nothing is sent and no
    draw is made. *)
Theorem unknown_sender_before_ten
    (rnd : nat -> Q) (st : state) (p : arrival) (tag : byte) (body : bytes) :
  pkt_data p = tag :: body ->
  Dict.get (pkt_address p) (contacts st) = None ->
  pkt_now p < 10 ->
  handle rnd st p =
  Ok (mkState (contacts st ++ [(pkt_address p, 0)]) (draws st),
      [LogReceived tag (removelast body) (pkt_address p);
       LogTooFast (pkt_now p) 0 (pkt_address p)]).
Proof.
  intros D G T.
  assert (I : Dict.getitem (pkt_address p) (contacts st)
              = (0, contacts st ++ [(pkt_address p, 0)])).
  { unfold Dict.getitem. rewrite G. f_equal.
    apply DictFacts.set_absent. now apply DictFacts.get_None. }
  assert (R : rejected (contacts st) p = true).
  { unfold rejected, too_fast. rewrite I. simpl. apply Qltb_lt. lra. }
  rewrite (handle_rejected rnd st p D R), I. reflexivity.
Qed.

Lemma unknown_sender_before_ten_witness :
  handle rnd_half (mkState [(peerB, 0)] 0) (mkArrival ping peerA 5) =
  Ok (mkState [(peerB, 0); (peerA, 0)] 0,
      [LogReceived x01 [x66; x73] peerA; LogTooFast 5 0 peerA]).
Proof.
  apply (@unknown_sender_before_ten rnd_half (mkState [(peerB, 0)] 0)
           (mkArrival ping peerA 5) x01 [x66; x73; x00]).
  - reflexivity.
  - reflexivity.
  - simpl. lra.
Defined.

(** ** Timestamps and the clock *)

Lemma In_set (e : sockaddr * Q) (a : sockaddr) (v : Q) (d : Dict.t) :
  In e (Dict.set a v d) -> In e d \/ e = (a, v).
Proof.
  induction d as [|[k w] d IH]; simpl.
  - intros [H | []]. now right.
  - destruct (addr_eqb k a) eqn:E; simpl.
    + apply addr_eqb_eq in E. subst k. intros [H | H]; [now right | tauto].
    + intros [H | H]; [tauto|]. destruct (IH H); tauto.
Qed.

Lemma In_getitem (e : sockaddr * Q) (a : sockaddr) (d : Dict.t) :
  In e (snd (Dict.getitem a d)) -> In e d \/ e = (a, 0).
Proof.
  unfold Dict.getitem. destruct (Dict.get a d); simpl; [tauto|].
  apply In_set.
Qed.

(** One iteration whose clock is not behind the timestamps of the table
    keeps them between 0 and the clock. *)
Lemma handle_stamps_within (rnd : nat -> Q) (st st' : state) (p : arrival)
    (evs : list event) (lo : Q) :
  Dict.wf (contacts st) ->
  0 <= lo -> lo <= pkt_now p ->
  stamps_within lo (contacts st) ->
  handle rnd st p = Ok (st', evs) ->
  stamps_within (pkt_now p) (contacts st').
Proof.
  intros W L0 L S H.
  destruct (pkt_data p) as [|tag body] eqn:D.
  { unfold handle in H. rewrite D in H. discriminate. }
  assert (S1 : forall addr when,
             In (addr, when) (snd (Dict.getitem (pkt_address p) (contacts st)))
             -> 0 <= when /\ when <= pkt_now p).
  { intros addr when HI. apply In_getitem in HI. destruct HI as [HI | HI].
    - destruct (S addr when HI). split; lra.
    - inversion HI; subst. split; lra. }
  destruct (rejected (contacts st) p) eqn:R.
  - rewrite (handle_rejected rnd st p D R) in H. injection H as <- _.
    exact S1.
  - rewrite (handle_accepted rnd st p D W R) in H. injection H as <- _.
    simpl. intros addr when HI. apply filter_In in HI.
    destruct HI as [HI _]. unfold refreshed in HI. apply In_set in HI.
    destruct HI as [HI | HI]; [now apply (S1 addr)|].
    inversion HI; subst. split; lra.
Qed.

(** A run of non-empty packets completes. *)
Lemma run_completes (rnd : nat -> Q) :
  forall (ps : list arrival) (st : state),
    Dict.wf (contacts st) ->
    Forall (fun q => pkt_data q <> []) ps ->
    exists st' evss, run rnd st ps = Ok (st', evss).
Proof.
  induction ps as [|q ps IH]; intros st W F; simpl.
  - eauto.
  - inversion F as [|? ? D F']; subst.
    destruct (@handle_completes rnd st q W D) as [s1 [e1 H1]].
    rewrite H1. simpl.
    destruct (IH s1) as [s2 [e2 H2]]; [|exact F'|].
    + apply (@run_wf rnd [q] st s1 [e1] W). simpl. now rewrite H1.
    + rewrite H2. simpl. eauto.
Qed.

Lemma run_stamps_within (rnd : nat -> Q) :
  forall (ps : list arrival) (st st' : state) (evss : list (list event))
         (lo : Q),
    Dict.wf (contacts st) ->
    0 <= lo ->
    stamps_within lo (contacts st) ->
    nondecreasing lo ps ->
    run rnd st ps = Ok (st', evss) ->
    stamps_within (last_time lo ps) (contacts st').
Proof.
  induction ps as [|q ps IH]; intros st st' evss lo W L0 S ND H;
    simpl in H.
  - injection H as <- _. exact S.
  - destruct ND as [L ND].
    destruct (handle rnd st q) as [[s1 e1]|] eqn:H1; simpl in H;
      [|discriminate].
    destruct (run rnd s1 ps) as [[s2 e2]|] eqn:H2; simpl in H;
      [|discriminate].
    injection H as <- _. simpl.
    apply (IH s1 s2 e2 (pkt_now q)); [| lra | | exact ND | exact H2].
    + apply (@run_wf rnd [q] st s1 [e1] W). simpl. now rewrite H1.
    + exact (@handle_stamps_within rnd st s1 q e1 lo W L0 L S H1).
Qed.

(** X6: as long as the clock never goes back, no timestamp of the table
    is negative or ahead of the clock: a run of non-empty packets that
    starts from a table stamped within [[0, lo]] completes, and
    afterwards every timestamp lies between 0 and the time of the last
    arrival. *)
Theorem timestamps_never_ahead_of_clock
    (rnd : nat -> Q) (ps : list arrival) (st : state) (lo : Q) :
  Dict.wf (contacts st) ->
  0 <= lo ->
  stamps_within lo (contacts st) ->
  nondecreasing lo ps ->
  Forall (fun q => pkt_data q <> []) ps ->
  exists st' evss,
    run rnd st ps = Ok (st', evss) /\
    stamps_within (last_time lo ps) (contacts st').
Proof.
  intros W L0 S ND F.
  destruct (@run_completes rnd ps st W F) as [st' [evss H]].
  exists st', evss. split; [exact H|].
  exact (@run_stamps_within rnd ps st st' evss lo W L0 S ND H).
Qed.

Lemma timestamps_never_ahead_of_clock_witness :
  exists st' evss,
    run rnd_half initial
        [mkArrival ping peerB 5; mkArrival ping peerA 100;
         mkArrival ping peerA 105; mkArrival ping peerB 111]
      = Ok (st', evss) /\
    stamps_within 111 (contacts st').
Proof.
  apply (@timestamps_never_ahead_of_clock rnd_half
           [mkArrival ping peerB 5; mkArrival ping peerA 100;
            mkArrival ping peerA 105; mkArrival ping peerB 111]
           initial 0).
  - constructor.
  - lra.
  - intros addr when [].
  - simpl. repeat split; lra.
  - repeat constructor; discriminate.
Defined.

(** ** A stale contact's last packet *)

(** X7: forwarding and eviction are decided separately.  With fewer
    than 50 entries in the scanned table (and draws in [[0, 1)]), a
    contact other than the sender that is more than 300 seconds old is
    sent the accepted packet and is gone from the table when the
    iteration ends. *)
Theorem stale_contact_gets_last_packet
    (rnd : nat -> Q) (st : state) (p : arrival) (addr : sockaddr) (when : Q) :
  Dict.wf (contacts st) ->
  pkt_data p <> [] ->
  unit_draws rnd ->
  rejected (contacts st) p = false ->
  (length (refreshed (contacts st) p) < 50)%nat ->
  addr <> pkt_address p ->
  Dict.get addr (contacts st) = Some when ->
  300 < pkt_now p - when ->
  exists st' evs,
    handle rnd st p = Ok (st', evs) /\
    In (pkt_data p, addr) (sends evs) /\
    Dict.get addr (contacts st') = None.
Proof.
  intros W D U R L N G A. destruct (nonempty_inv p D) as [tag [body E]].
  assert (N' : pkt_address p <> addr) by congruence.
  assert (G2 : Dict.get addr (refreshed (contacts st) p) = Some when).
  { unfold refreshed.
    rewrite DictFacts.get_set_other, DictFacts.get_getitem_other
      by assumption. exact G. }
  rewrite (handle_accepted rnd st p E W R). eexists. eexists.
  split; [reflexivity|]. cbn [sends contacts]. rewrite sends_LogTooMany.
  rewrite sends_forwarded_all.
  2:{ intros k. destruct (U k) as [_ H].
      eapply Qlt_le_trans; [exact H | now apply fanout_small]. }
  split.
  - change (pkt_data p, addr)
      with ((fun e : sockaddr * Q => (pkt_data p, fst e)) (addr, when)).
    apply in_map. now apply DictFacts.get_Some_In.
  - apply DictFacts.get_filter_drop
      with (P := fun w => negb (stale (pkt_now p) w)) (v := when);
      [apply refreshed_wf, W | exact G2 |].
    apply negb_false_iff, Qltb_lt. exact A.
Qed.

Lemma stale_contact_gets_last_packet_witness :
  exists st' evs,
    handle rnd_half (mkState [(peerB, 0); (peerC, 2); (peerA, 100)] 3)
           (mkArrival ping peerA 301) = Ok (st', evs) /\
    In (ping, peerB) (sends evs) /\
    Dict.get peerB (contacts st') = None.
Proof.
  apply (@stale_contact_gets_last_packet rnd_half
           (mkState [(peerB, 0); (peerC, 2); (peerA, 100)] 3)
           (mkArrival ping peerA 301) peerB 0).
  - apply DictFacts.distinct_wf. reflexivity.
  - discriminate.
  - intros k. unfold rnd_half. split; lra.
  - reflexivity.
  - simpl. lia.
  - discriminate.
  - reflexivity.
  - simpl. lra.
Defined.

(** ** Where the contacts come from *)

(** One iteration adds no address but the sender's, and at most one
    entry. *)
Lemma handle_keys (rnd : nat -> Q) (st st' : state) (p : arrival)
    (evs : list event) :
  Dict.wf (contacts st) ->
  handle rnd st p = Ok (st', evs) ->
  (forall a, In a (Dict.keys (contacts st')) ->
     In a (Dict.keys (contacts st)) \/ a = pkt_address p) /\
  (length (contacts st') <= S (length (contacts st)))%nat.
Proof.
  intros W H.
  destruct (pkt_data p) as [|tag body] eqn:D.
  { unfold handle in H. rewrite D in H. discriminate. }
  assert (K : forall a e, In e (snd (Dict.getitem (pkt_address p) (contacts st)))
                          -> fst e = a ->
                          In a (Dict.keys (contacts st)) \/ a = pkt_address p).
  { intros a e HI <-. apply In_getitem in HI. destruct HI as [HI | ->].
    - left. now apply in_map.
    - now right. }
  destruct (rejected (contacts st) p) eqn:R.
  - rewrite (handle_rejected rnd st p D R) in H. injection H as <- _.
    simpl. split; [|apply length_getitem].
    intros a HI. apply in_map_iff in HI. destruct HI as [e [F HI]].
    exact (K a e HI F).
  - rewrite (handle_accepted rnd st p D W R) in H. injection H as <- _.
    simpl. split.
    + intros a HI. apply in_map_iff in HI. destruct HI as [e [F HI]].
      apply filter_In in HI. destruct HI as [HI _].
      unfold refreshed in HI. apply In_set in HI.
      destruct HI as [HI | ->]; [exact (K a e HI F)|]. right. now subst a.
    + pose proof (filter_length_le (fresh (pkt_now p))
                                   (refreshed (contacts st) p)).
      rewrite length_refreshed in *.
      pose proof (length_getitem (pkt_address p) (contacts st)). lia.
Qed.

(** X8: the table is only ever filled from the source addresses of the
    packets received.  A run of non-empty packets completes, every
    address in the table afterwards was in it before or sent one of the
    packets, and the table has grown by at most one entry per packet. *)
Theorem contacts_are_senders (rnd : nat -> Q) :
  forall (ps : list arrival) (st : state),
    Dict.wf (contacts st) ->
    Forall (fun q => pkt_data q <> []) ps ->
    exists st' evss,
      run rnd st ps = Ok (st', evss) /\
      (forall a, In a (Dict.keys (contacts st')) ->
         In a (Dict.keys (contacts st)) \/ In a (map pkt_address ps)) /\
      (length (contacts st') <= length (contacts st) + length ps)%nat.
Proof.
  induction ps as [|q ps IH]; intros st W F.
  - exists st, []. simpl. split; [reflexivity|]. split; [tauto | lia].
  - inversion F as [|? ? D F']; subst.
    destruct (@handle_completes rnd st q W D) as [s1 [e1 H1]].
    assert (W1 : Dict.wf (contacts s1)).
    { apply (@run_wf rnd [q] st s1 [e1] W). simpl. now rewrite H1. }
    destruct (@handle_keys rnd st s1 q e1 W H1) as [K1 L1].
    destruct (IH s1 W1 F') as [s2 [e2 [H2 [K2 L2]]]].
    exists s2, (e1 :: e2). simpl. rewrite H1. simpl. rewrite H2. simpl.
    split; [reflexivity|]. split; [|lia].
    intros a HI. destruct (K2 a HI) as [HI1 | HI1]; [|tauto].
    destruct (K1 a HI1) as [HI0 | ->]; tauto.
Qed.

Lemma contacts_are_senders_witness :
  exists st' evss,
    run rnd_half initial
        [mkArrival ping peerB 5; mkArrival ping peerA 100;
         mkArrival ping peerA 105] = Ok (st', evss) /\
    (forall a, In a (Dict.keys (contacts st')) ->
       In a [] \/ In a [peerB; peerA; peerA]) /\
    (length (contacts st') <= 0 + 3)%nat.
Proof.
  apply (@contacts_are_senders rnd_half
           [mkArrival ping peerB 5; mkArrival ping peerA 100;
            mkArrival ping peerA 105] initial).
  - constructor.
  - repeat constructor; discriminate.
Defined.

(** * Properties of the side-by-side checks *)

Module DualrootFacts.
Import Dualroot.

Lemma pyeq_eq (a b : pyval) : pyeq a b = true <-> a = b.
Proof.
  unfold pyeq. destruct (pyval_eq_dec a b); split; congruence.
Qed.

Lemma pyeq_refl (a : pyval) : pyeq a a = true.
Proof. now apply pyeq_eq. Qed.

Lemma chk_Return (a b : pyval) (m : string) :
  chk a b m = Return a <-> agree a b.
Proof.
  unfold chk, agree. destruct (pyeq a b) eqn:E.
  - apply pyeq_eq in E. tauto.
  - destruct (is_OSError a) eqn:A, (is_OSError b) eqn:B; simpl;
      try (split; [discriminate | intros [H | [? [? ?]]];
                                  [apply pyeq_eq in H|]; congruence]).
    destruct (Z.eqb_spec (errno_of a) (errno_of b)) as [Q | Q].
    + tauto.
    + split; [discriminate|]. intros [H | [_ [_ H]]]; [|contradiction].
      apply pyeq_eq in H. congruence.
Qed.

Lemma chk_cases (a b : pyval) (m : string) :
  chk a b m = Return a \/ chk a b m = Throw (MismatchException m a b).
Proof.
  unfold chk. destruct (pyeq a b); [now left|].
  destruct (is_OSError a && is_OSError b
            && Z.eqb (errno_of a) (errno_of b))%bool; tauto.
Qed.

(** X9: passing [chk] is a symmetric and transitive relation, and every
    result agrees with itself: when [a] passes against [b] and [b]
    against [c], any two of the three pass in either order, each call
    returning its first argument. *)
Theorem chk_agreement_is_equivalence (a b c : pyval) (m : string) :
  chk a b m = Return a ->
  chk b c m = Return b ->
  chk a a m = Return a /\
  chk b a m = Return b /\
  chk a c m = Return a /\
  chk c a m = Return c.
Proof.
  rewrite !chk_Return. unfold agree.
  intros [-> | [A1 [A2 A3]]] [-> | [B1 [B2 B3]]]; repeat split;
    try (left; reflexivity);
    try (right; repeat split; congruence).
Qed.

Lemma chk_agreement_is_equivalence_witness :
  chk (PErr (mkErr 1 ExactOSError 2)) (PErr (mkErr 1 ExactOSError 2)) "read"
    = Return (PErr (mkErr 1 ExactOSError 2)) /\
  chk (PErr (mkErr 2 ExactOSError 2)) (PErr (mkErr 1 ExactOSError 2)) "read"
    = Return (PErr (mkErr 2 ExactOSError 2)) /\
  chk (PErr (mkErr 1 ExactOSError 2)) (PErr (mkErr 3 ExactOSError 2)) "read"
    = Return (PErr (mkErr 1 ExactOSError 2)) /\
  chk (PErr (mkErr 3 ExactOSError 2)) (PErr (mkErr 1 ExactOSError 2)) "read"
    = Return (PErr (mkErr 3 ExactOSError 2)).
Proof.
  apply (@chk_agreement_is_equivalence
           (PErr (mkErr 1 ExactOSError 2)) (PErr (mkErr 2 ExactOSError 2))
           (PErr (mkErr 3 ExactOSError 2)) "read"%string);
    reflexivity.
Defined.

(** X10: a failure never passes against a success, and two different
    exception objects pass only when both are of class [OSError]
    itself: as soon as one is of a subclass, equal [errno]s are reported
    as a mismatch. *)
Theorem chk_failures (m : string) (e e' : oserror) (v : pyval) :
  (forall x, v <> PErr x) ->
  e <> e' ->
  chk v (PErr e) m = Throw (MismatchException m v (PErr e)) /\
  chk (PErr e) v m = Throw (MismatchException m (PErr e) v) /\
  (err_class e = SubOSError \/ err_class e' = SubOSError ->
   chk (PErr e) (PErr e') m
     = Throw (MismatchException m (PErr e) (PErr e'))) /\
  (err_class e = ExactOSError -> err_class e' = ExactOSError ->
   (chk (PErr e) (PErr e') m = Return (PErr e) <-> errno e = errno e')).
Proof.
  intros V N.
  assert (F : forall a b, ~ agree a b ->
                          chk a b m = Throw (MismatchException m a b)).
  { intros a b H. destruct (chk_cases a b m) as [C | C]; [|exact C].
    apply chk_Return in C. contradiction. }
  assert (Vn : is_OSError v = false).
  { destruct v; try reflexivity. exfalso. now apply (V e0). }
  split; [|split; [|split]].
  - apply F. intros [H | [H _]]; [now apply (V e) | congruence].
  - apply F. intros [H | [_ [H _]]]; [now apply (V e) | congruence].
  - intros S. apply F. intros [H | [A [B _]]]; [congruence|].
    simpl in A, B. destruct S as [S | S]; rewrite S in *; discriminate.
  - intros C1 C2. split.
    + intros H. apply chk_Return in H.
      destruct H as [H | [_ [_ H]]]; [congruence | exact H].
    + intros H. apply chk_Return. right. simpl.
      rewrite C1, C2. auto.
Qed.

Lemma chk_failures_witness :
  chk (PInt 3) (PErr (mkErr 1 SubOSError 2)) "open"
    = Throw (MismatchException "open" (PInt 3) (PErr (mkErr 1 SubOSError 2))) /\
  chk (PErr (mkErr 1 SubOSError 2)) (PErr (mkErr 2 SubOSError 2)) "open"
    = Throw (MismatchException "open" (PErr (mkErr 1 SubOSError 2))
                               (PErr (mkErr 2 SubOSError 2))).
Proof.
  destruct (@chk_failures "open"%string (mkErr 1 SubOSError 2)
              (mkErr 2 SubOSError 2) (PInt 3)) as [A [_ [B _]]].
  - discriminate.
  - discriminate.
  - split; [exact A|]. apply B. now left.
Defined.

(** X11: on two [stat] results [chkstat] either returns the first or
    raises [MismatchException], and it returns exactly when link count,
    owner, group, size, modification time and change time are the same:
    mode, inode, device and access time are never compared. *)
Theorem chkstat_compares_six_fields (s1 s2 : stat_result) (m : string) :
  (chkstat (Stat s1) (Stat s2) m = Return (Stat s1) \/
   chkstat (Stat s1) (Stat s2) m
     = Throw (MismatchException m (Stat s1) (Stat s2))) /\
  (chkstat (Stat s1) (Stat s2) m = Return (Stat s1) <->
   st_nlink s1 = st_nlink s2 /\ st_uid s1 = st_uid s2 /\
   st_gid s1 = st_gid s2 /\ st_size s1 = st_size s2 /\
   st_mtime s1 = st_mtime s2 /\ st_ctime s1 = st_ctime s2).
Proof.
  unfold chkstat. cbn [chkstat_loop subscript and_then ST_NLINK ST_UID
                       ST_GID ST_SIZE ST_MTIME ST_CTIME].
  destruct (Z.eqb_spec (st_nlink s1) (st_nlink s2));
    [|split; [now right | split; [discriminate | tauto]]].
  destruct (Z.eqb_spec (st_uid s1) (st_uid s2));
    [|split; [now right | split; [discriminate | tauto]]].
  destruct (Z.eqb_spec (st_gid s1) (st_gid s2));
    [|split; [now right | split; [discriminate | tauto]]].
  destruct (Z.eqb_spec (st_size s1) (st_size s2));
    [|split; [now right | split; [discriminate | tauto]]].
  destruct (Z.eqb_spec (st_mtime s1) (st_mtime s2));
    [|split; [now right | split; [discriminate | tauto]]].
  destruct (Z.eqb_spec (st_ctime s1) (st_ctime s2));
    [|split; [now right | split; [discriminate | tauto]]].
  split; [now left | tauto].
Qed.

Lemma chkstat_failure (a b : statval) (m : string) :
  chkstat a b m = Throw SubscriptError <->
  (exists e, a = StatErr e) \/ (exists e, b = StatErr e).
Proof.
  destruct a as [s1 | e1], b as [s2 | e2].
  - split.
    + intros H.
      destruct (chkstat_compares_six_fields s1 s2 m) as [[C | C] _];
        rewrite C in H; discriminate.
    + intros [[e H] | [e H]]; discriminate.
  - split; [intros _; right; eauto | reflexivity].
  - split; [intros _; left; eauto | reflexivity].
  - split; [intros _; left; eauto | reflexivity].
Qed.

(** X12: [Hndl.stat] and [Hndl.fstat] cannot report a failure.  When
    the call raised under either root, also when it raised the same
    error under both, [chkstat] subscripts the exception object and the
    caller gets that error, neither a result nor a [MismatchException];
    with two successful calls this never happens. *)
Theorem stat_failure_is_a_subscript_error (o1 o2 : os_result stat_result) :
  (Hndl_stat o1 o2 = Throw SubscriptError <->
   (exists e, o1 = RaisedOSError e) \/ (exists e, o2 = RaisedOSError e)) /\
  (Hndl_fstat o1 o2 = Throw SubscriptError <->
   (exists e, o1 = RaisedOSError e) \/ (exists e, o2 = RaisedOSError e)).
Proof.
  assert (C : forall o : os_result stat_result,
             (exists e, catching_stat o = StatErr e) <->
             (exists e, o = RaisedOSError e)).
  { intros [s | e]; simpl; split; intros [x H];
      try discriminate; eauto. }
  unfold Hndl_stat, Hndl_fstat. rewrite !chkstat_failure, !C. tauto.
Qed.

(** X13: [Hndl.open] compares the two results only when one of them is
    an object of class [OSError] itself.  Two successful opens pass
    whatever the two descriptors are; a failure under one root only is
    reported when the exception is a plain [OSError], and goes
    unreported, the exception object handed back in the pair, when it
    is of a subclass. *)
Theorem open_reports_only_plain_OSError (fd1 fd2 : Z) (e : oserror) :
  Hndl_open (Returned fd1) (Returned fd2) = Return (PInt fd1, PInt fd2) /\
  Hndl_open (Returned fd1) (RaisedOSError e) =
    match err_class e with
    | ExactOSError => Throw (MismatchException "open" (PInt fd1) (PErr e))
    | SubOSError => Return (PInt fd1, PErr e)
    end /\
  Hndl_open (RaisedOSError e) (Returned fd2) =
    match err_class e with
    | ExactOSError => Throw (MismatchException "open" (PErr e) (PInt fd2))
    | SubOSError => Return (PErr e, PInt fd2)
    end.
Proof.
  split; [reflexivity|]. unfold Hndl_open, chk, catching, is_OSError, pyeq.
  split.
  - destruct (err_class e); [|reflexivity].
    destruct (pyval_eq_dec (PInt fd1) (PErr e)); [discriminate | reflexivity].
  - destruct (err_class e); [|reflexivity].
    destruct (pyval_eq_dec (PErr e) (PInt fd2)); [discriminate | reflexivity].
Qed.

End DualrootFacts.
